(** * Nuru: the runtime value model ([src/object/object.go])

    A shallow embedding of package [object] of the Nuru interpreter: the
    value variants, their rendering ([Inspect]), their identity as Dict keys
    ([HashKey]) and the iteration protocol ([Next] / [Reset]) of String,
    Array and Dict.

    Conventions of the embedding.
    - A Go [string] is a sequence of bytes: Rocq's [string] (a list of
      8-bit [ascii]).  [len] is [String.length].
    - [int64] and [int] are [Z]; [uint64] is [Z] reduced modulo [2^64].
    - A Go [map] is an association list whose keys are pairwise distinct;
      the order in which [range] visits it is chosen by the run time at
      every loop, and is drawn here from an explicit supply of choices.
    - A method that assigns to its receiver returns the new receiver.
    - An index out of range is a run-time panic: [Panic]. *)

From Stdlib Require Import ZArith List String Ascii Bool Lia Arith.
From Stdlib Require Import Permutation Sorted DecimalString DecimalPos DecimalZ.
Import ListNotations.

Local Open Scope string_scope.
Local Open Scope Z_scope.

(** ** The Go library functions the package calls *)

Module Go.

(** [strings.Join(elems, sep)]. *)
Fixpoint Join (elems : list string) (sep : string) : string :=
  match elems with
  | [] => ""
  | [e] => e
  | e :: rest => e ++ sep ++ Join rest sep
  end.

(** [fmt.Sprintf("%d", v)] for an [int64]: decimal digits, with a minus sign
    only for a negative number. *)
Definition Sprintf_d (v : Z) : string := NilZero.string_of_int (Z.to_int v).

(** The byte at the head of a string, as a number below 256. *)
Definition byte_val (c : ascii) : Z := Z.of_nat (nat_of_ascii c).

Definition byte_of (z : Z) : ascii := ascii_of_nat (Z.to_nat z).

(** [string(b)] for a byte [b]: a conversion from an integer to a string
    yields the UTF-8 encoding of the code point of that number, so one byte
    below [0x80] and two bytes from [0x80] to [0xFF]. *)
Definition string_of_byte (c : ascii) : string :=
  let r := byte_val c in
  if r <? 128 then String c EmptyString
  else String (byte_of (Z.lor 192 (Z.shiftr r 6)))
         (String (byte_of (Z.lor 128 (Z.land r 63))) EmptyString).

(** The number of code points of a UTF-8 string made of well-formed
    sequences of at most two bytes ([utf8.RuneCountInString] on such
    strings): a continuation byte [10xxxxxx] starts no code point. *)
Fixpoint rune_count (s : string) : nat :=
  match s with
  | EmptyString => 0%nat
  | String c rest =>
      if Z.land (byte_val c) 192 =? 128 then rune_count rest
      else S (rune_count rest)
  end.

(** [s[i]]: the byte at offset [i], or a panic when [i] is out of range. *)
Definition index (s : string) (i : Z) : option ascii :=
  if i <? 0 then None else String.get (Z.to_nat i) s.

(** [hash/fnv]: [New64a], [Write] and [Sum64] (FNV-1a, 64 bits). *)
Definition uint64 (z : Z) : Z := z mod 2 ^ 64.

Definition offset64 : Z := 14695981039346656037.
Definition prime64 : Z := 1099511628211.

Fixpoint fnv64a_write (h : Z) (data : string) : Z :=
  match data with
  | EmptyString => h
  | String c rest =>
      fnv64a_write (uint64 (Z.lxor h (byte_val c) * prime64)) rest
  end.

Definition fnv64a (data : string) : Z := fnv64a_write offset64 data.

(** [sort.Strings]: ascending order of Go's [<] on strings, which compares
    byte by byte.  Equal strings cannot be told apart, so every sorting
    algorithm returns the same slice; insertion sort stands for it. *)
Fixpoint insert (k : string) (l : list string) : list string :=
  match l with
  | [] => [k]
  | x :: rest => if String.leb k x then k :: l else x :: insert k rest
  end.

Fixpoint sort_Strings (l : list string) : list string :=
  match l with
  | [] => []
  | k :: rest => insert k (sort_Strings rest)
  end.

(** *** Maps

    [gomap K V] is a Go [map[K]V]: keys pairwise distinct. *)
Section Maps.
Context {K V : Type} (eqb : K -> K -> bool).

Definition gomap : Type := list (K * V).

(** [v, ok := m[k]]. *)
Fixpoint lookup (m : gomap) (k : K) : option V :=
  match m with
  | [] => None
  | (k', v) :: rest => if eqb k k' then Some v else lookup rest k
  end.

(** [m[k] = v]: overwrite the entry of [k], or add one. *)
Fixpoint store (m : gomap) (k : K) (v : V) : gomap :=
  match m with
  | [] => [(k, v)]
  | (k', v') :: rest =>
      if eqb k k' then (k, v) :: rest else (k', v') :: store rest k v
  end.
End Maps.

(** *** The order of [range] over a map

    The language leaves the order unspecified and the run time varies it
    from one loop to the next.  Every [range] over a map draws one number
    from a supply [rand]; the number selects a permutation of the entries
    (its digits in the factorial number system pick the next entry among
    those not yet visited), and every permutation is selected by some
    number. *)
Definition rand : Type := list nat.

Definition draw (rnd : rand) : nat * rand :=
  match rnd with
  | [] => (0%nat, [])
  | n :: rest => (n, rest)
  end.

Fixpoint remove_at {A : Type} (i : nat) (l : list A) : list A :=
  match l, i with
  | [], _ => []
  | _ :: rest, O => rest
  | x :: rest, S j => x :: remove_at j rest
  end.

Fixpoint pick {A : Type} (fuel : nat) (seed : nat) (l : list A) : list A :=
  match fuel, l with
  | S fuel', x :: _ =>
      let n := List.length l in
      let i := (seed mod n)%nat in
      nth i l x :: pick fuel' (seed / n)%nat (remove_at i l)
  | _, _ => []
  end.

Definition permute {A : Type} (seed : nat) (l : list A) : list A :=
  pick (List.length l) seed l.

Definition range_map {A : Type} (m : list A) (rnd : rand) : list A * rand :=
  let '(seed, rnd') := draw rnd in (permute seed m, rnd').

(** *** [strconv.FormatFloat(f, 'f', -1, 64)]

    A model of the library function, used to evaluate the package at
    concrete floats; the theorems about the package hold for every
    rendering function.  The digits are the shortest decimal that reads back
    as the same [float64], the closest to it among those; the layout is
    that of the ['f'] format, with no exponent.

    [shortest k] looks for a multiple of [10^k] between the midpoints
    [L] and [U] that separate the float [V] from its neighbours (all three
    in units of [2^e2]; the midpoints count when the mantissa is even),
    from a coarse [k] down; with two candidates it rounds to nearest,
    half to even. *)
Fixpoint shortest (fuel : nat) (k : Z) (V L U e2 : Z) (inclusive : bool)
  : Z * Z :=
  match fuel with
  | O => (0, k)
  | S fuel' =>
      let A := 2 ^ Z.max e2 0 * 10 ^ Z.max (- k) 0 in
      let B := 2 ^ Z.max (- e2) 0 * 10 ^ Z.max k 0 in
      let t := (V * A) / B in
      let okdown :=
        if inclusive then L * A <=? t * B else L * A <? t * B in
      let okup :=
        if inclusive then (t + 1) * B <=? U * A else (t + 1) * B <? U * A in
      let r := 2 * ((V * A) mod B) in
      let up := if r <? B then false else if B <? r then true else Z.odd t in
      if okdown && okup then (if up then t + 1 else t, k)
      else if okdown then (t, k)
      else if okup then (t + 1, k)
      else shortest fuel' (k - 1) V L U e2 inclusive
  end.

Fixpoint zeros (n : nat) : string :=
  match n with
  | O => ""
  | S n' => "0" ++ zeros n'
  end.

(** The digits [T] scaled by [10^k], written without an exponent. *)
Definition fmtF (T k : Z) : string :=
  let digs := Sprintf_d T in
  if 0 <=? k then digs ++ zeros (Z.to_nat k)
  else
    let n := Z.to_nat (- k) in
    let len := String.length digs in
    if (n <? len)%nat then
      substring 0 (len - n) digs ++ "." ++ substring (len - n) n digs
    else "0." ++ zeros (n - len) ++ digs.

Definition strconv_FormatFloat (bits : Z) : string :=
  let neg := Z.testbit bits 63 in
  let e := Z.land (Z.shiftr bits 52) 2047 in
  let frac := Z.land bits (2 ^ 52 - 1) in
  if e =? 2047 then
    if negb (frac =? 0) then "NaN" else if neg then "-Inf" else "+Inf"
  else
    let mant := if e =? 0 then frac else Z.lor frac (2 ^ 52) in
    let exp := (if e =? 0 then 1 else e) - 1023 in
    let body :=
      if mant =? 0 then "0"
      else
        let L := if (2 ^ 52 <? mant) || (exp =? -1022)
                 then 4 * mant - 2 else 4 * mant - 1 in
        let '(T, k) :=
          shortest 1400 310 (4 * mant) L (4 * mant + 2) (exp - 52 - 2)
            (Z.even mant) in
        fmtF T k in
    if neg then "-" ++ body else body.

End Go.

(** ** Effects

    [M A] is a computation that may range over maps: it consumes choices
    from the supply and returns what is left of it. *)
Definition M (A : Type) : Type := Go.rand -> A * Go.rand.

Definition ret {A : Type} (a : A) : M A := fun rnd => (a, rnd).

Definition bind {A B : Type} (m : M A) (f : A -> M B) : M B :=
  fun rnd => let '(a, rnd') := m rnd in f a rnd'.

Notation "x <- m ;; k" := (bind m (fun x => k))
  (at level 61, m at next level, right associativity).
Notation "' pat <- m ;; k" := (bind m (fun x => match x with pat => k end))
  (at level 61, pat pattern, m at next level, right associativity).

(** Run the computations of a list one after the other. *)
Fixpoint sequence {A : Type} (ms : list (M A)) : M (list A) :=
  match ms with
  | [] => ret []
  | m :: rest => a <- m ;; l <- sequence rest ;; ret (a :: l)
  end.

(** The outcome of a call that may panic. *)
Inductive result (A : Type) : Type :=
  | Ok (a : A)
  | Panic (msg : string).
Arguments Ok {A} a.
Arguments Panic {A} msg.

(** ** The data model *)

Definition ObjectType : Type := string.

Definition INTEGER_OBJ : ObjectType := "NAMBA".
Definition FLOAT_OBJ : ObjectType := "DESIMALI".
Definition BOOLEAN_OBJ : ObjectType := "BOOLEAN".
Definition NULL_OBJ : ObjectType := "TUPU".
Definition RETURN_VALUE_OBJ : ObjectType := "RUDISHA".
Definition ERROR_OBJ : ObjectType := "KOSA".
Definition FUNCTION_OBJ : ObjectType := "UNDO (FUNCTION)".
Definition STRING_OBJ : ObjectType := "NENO".
Definition BUILTIN_OBJ : ObjectType := "YA_NDANI".
Definition ARRAY_OBJ : ObjectType := "ORODHA".
Definition DICT_OBJ : ObjectType := "KAMUSI".
Definition CONTINUE_OBJ : ObjectType := "ENDELEA".
Definition BREAK_OBJ : ObjectType := "VUNJA".

(** [type HashKey struct { Type ObjectType; Value uint64 }]. *)
Record HashKey : Type := mkHashKey { hk_Type : ObjectType; hk_Value : Z }.

Definition HashKey_eqb (a b : HashKey) : bool :=
  String.eqb (hk_Type a) (hk_Type b) && (hk_Value a =? hk_Value b).

(** A [float64] is its 64-bit pattern (IEEE 754 binary64). *)
Definition float64 : Type := Z.

(** Modelled from the spec: [ast.Identifier], of package [ast], whose code
    is elsewhere in the repository.  The spec describes a Function as a
    parameter-name list: an identifier is its name, which [String()]
    returns. *)
Record Identifier : Type := mkIdentifier { Identifier_String : string }.

(** Modelled from the spec: [ast.BlockStatement], of the same package.  The
    spec describes the body of a Function as opaque, with a rendering: a
    block statement is known by the text [String()] returns. *)
Record BlockStatement : Type :=
  mkBlockStatement { BlockStatement_String : string }.

(** Modelled from the spec: [Environment], declared in another file of the
    package.  A Function holds a non-owning reference to the environment it
    captured: an address. *)
Definition Environment : Type := nat.

(** [type BuiltinFunction func(args ...Object) Object]: a Go function value.
    No method of this file calls it; it is kept as a handle on the native
    procedure. *)
Definition BuiltinFunction : Type := nat.

#[local] Set Warnings "-register-all".

(** The variants of [Object], each with the fields of its struct.  The
    interface values stored in a value (elements, keys, wrapped values) are
    non-nil. *)
Inductive Object : Type :=
  | Integer (Value : Z)
  | Float (Value : float64)
  | Boolean (Value : bool)
  | Null
  | ReturnValue (Value : Object)
  | Error (Message : string)
  | Function (Parameters : list Identifier) (Body : BlockStatement)
      (Env : Environment)
  | String (Value : string) (offset : Z)
  | Builtin (Fn : BuiltinFunction)
  | Array (Elements : list Object) (offset : Z)
  | Dict (Pairs : list (HashKey * (Object * Object))) (offset : Z)
  | Continue
  | Break.

(** [type DictPair struct { Key Object; Value Object }]. *)
Definition DictPair : Type := (Object * Object)%type.
Definition Key (p : DictPair) : Object := fst p.
Definition Value (p : DictPair) : Object := snd p.

(** What [Next] returns: two interface values, each possibly nil. *)
Definition yield : Type := (option Object * option Object)%type.

Definition absent : yield := (None, None).

Definition yields (k v : Object) : yield := (Some k, Some v).

(** ** The methods *)

Definition Type_ (o : Object) : ObjectType :=
  match o with
  | Integer _ => INTEGER_OBJ
  | Float _ => FLOAT_OBJ
  | Boolean _ => BOOLEAN_OBJ
  | Null => NULL_OBJ
  | ReturnValue _ => RETURN_VALUE_OBJ
  | Error _ => ERROR_OBJ
  | Function _ _ _ => FUNCTION_OBJ
  | String _ _ => STRING_OBJ
  | Builtin _ => BUILTIN_OBJ
  | Array _ _ => ARRAY_OBJ
  | Dict _ _ => DICT_OBJ
  | Continue => CONTINUE_OBJ
  | Break => BREAK_OBJ
  end.

Definition Integer_Inspect (Value : Z) : string := Go.Sprintf_d Value.

Definition Boolean_Inspect (Value : bool) : string :=
  if Value then "kweli" else "sikweli".

Definition ESC : string := String.String (ascii_of_nat 27) EmptyString.
Definition LF : string := String.String (ascii_of_nat 10) EmptyString.

(** [fmt.Sprintf("\x1b[%dm%s\x1b[0m", 31, "Kosa: ") + e.Message]. *)
Definition Error_Inspect (Message : string) : string :=
  (ESC ++ "[" ++ Go.Sprintf_d 31 ++ "m" ++ "Kosa: " ++ ESC ++ "[0m")
  ++ Message.

Definition Function_Inspect (Parameters : list Identifier)
    (Body : BlockStatement) : string :=
  let params := map Identifier_String Parameters in
  "unda" ++ "(" ++ Go.Join params ", " ++ (") {" ++ LF)
  ++ BlockStatement_String Body ++ (LF ++ "}").

(** [fmt.Sprintf("%s: %s", key, value)]. *)
Definition Sprintf_pair (key value : string) : string :=
  key ++ ": " ++ value.

Section WithFormatFloat.

(** [strconv.FormatFloat(f, 'f', -1, 64)], of Go's library: the decimal
    text of a [float64]. *)
Variable FormatFloat : float64 -> string.

Definition Float_Inspect (Value : float64) : string := FormatFloat Value.

(** [Inspect], through the interface: every variant's method.  No method
    assigns a field of its receiver, so all that is returned is the text.
    [Array] and [Dict] call the method of what they hold; [Dict] visits its
    map in the order [range] gives, and the loop body runs in that order. *)
Fixpoint Inspect (o : Object) : M string :=
  match o with
  | Integer v => ret (Integer_Inspect v)
  | Float v => ret (Float_Inspect v)
  | Boolean v => ret (Boolean_Inspect v)
  | Null => ret "null"
  | ReturnValue v => Inspect v
  | Error msg => ret (Error_Inspect msg)
  | Function ps body _ => ret (Function_Inspect ps body)
  | String v _ => ret v
  | Builtin _ => ret "builtin function"
  | Array es _ =>
      elements <- sequence (map Inspect es) ;;
      ret ("[" ++ Go.Join elements ", " ++ "]")
  | Dict m _ =>
      order <- Go.range_map
                 (map (fun e => match e with
                                | (_, (k, v)) =>
                                    ks <- Inspect k ;;
                                    vs <- Inspect v ;;
                                    ret (Sprintf_pair ks vs)
                                end) m) ;;
      pairs <- sequence order ;;
      ret ("{" ++ Go.Join pairs ", " ++ "}")
  | Continue => ret "continue"
  | Break => ret "break"
  end.

(** The body of the loop of [Dict.Inspect], for one entry of the map. *)
Definition Inspect_pair (e : HashKey * DictPair) : M string :=
  ks <- Inspect (Key (snd e)) ;;
  vs <- Inspect (Value (snd e)) ;;
  ret (Sprintf_pair ks vs).

(** The rendering alone. *)
Definition Render (o : Object) (rnd : Go.rand) : string := fst (Inspect o rnd).

(** *** Hashing *)

Definition Boolean_HashKey (Value : bool) : HashKey :=
  let value := if Value then 1 else 0 in
  mkHashKey BOOLEAN_OBJ value.

Definition Integer_HashKey (Value : Z) : HashKey :=
  mkHashKey INTEGER_OBJ (Go.uint64 Value).

Definition Float_HashKey (Value : float64) : HashKey :=
  mkHashKey FLOAT_OBJ (Go.fnv64a (Float_Inspect Value)).

Definition String_HashKey (Value : string) : HashKey :=
  mkHashKey STRING_OBJ (Go.fnv64a Value).

(** The [Hashable] interface: the four variants that have the method. *)
Definition Hashable_HashKey (o : Object) : option HashKey :=
  match o with
  | Boolean v => Some (Boolean_HashKey v)
  | Integer v => Some (Integer_HashKey v)
  | Float v => Some (Float_HashKey v)
  | String v _ => Some (String_HashKey v)
  | _ => None
  end.

(** *** Iteration

    The cursor is an [int]; [int64(offset)] is the same number.  The
    cursor is incremented only below a length, so it never wraps. *)

Definition String_Next (Value : string) (offset : Z) : result (yield * Object) :=
  if Z.of_nat (String.length Value) >? offset then
    match Go.index Value offset with
    | Some c =>
        Ok (yields (Integer offset) (String (Go.string_of_byte c) 0),
            String Value (offset + 1))
    | None => Panic "index out of range"
    end
  else Ok (absent, String Value offset).

Definition String_Reset (Value : string) (offset : Z) : Object :=
  String Value 0.

(** [ao.Elements[idx]]. *)
Definition element (Elements : list Object) (idx : Z) : option Object :=
  if idx <? 0 then None else nth_error Elements (Z.to_nat idx).

Definition Array_Next (Elements : list Object) (offset : Z)
  : result (yield * Object) :=
  let idx := offset in
  if Z.of_nat (List.length Elements) >? idx then
    match element Elements idx with
    | Some e => Ok (yields (Integer idx) e, Array Elements (idx + 1))
    | None => Panic "index out of range"
    end
  else Ok (absent, Array Elements offset).

Definition Array_Reset (Elements : list Object) (offset : Z) : Object :=
  Array Elements 0.

(** The first loop of [Dict.Next]: the map [dict] from rendered key to pair
    and the slice [keys] of rendered keys, over the pairs in [range] order.
    The key is rendered twice, as in the source. *)
Fixpoint collect (order : list (HashKey * DictPair))
    (dict : list (string * DictPair)) (keys : list string)
  : M (list (string * DictPair) * list string) :=
  match order with
  | [] => ret (dict, keys)
  | (_, v) :: rest =>
      k1 <- Inspect (Key v) ;;
      let dict := Go.store String.eqb dict k1 v in
      k2 <- Inspect (Key v) ;;
      collect rest dict (keys ++ [k2])
  end.

(** The second loop: the key at which [idx] reaches the cursor. *)
Fixpoint scan (offset : Z) (keys : list string) (idx : Z) : option string :=
  match keys with
  | [] => None
  | k :: rest => if offset =? idx then Some k else scan offset rest (idx + 1)
  end.

Definition Dict_Next (Pairs : list (HashKey * DictPair)) (offset : Z)
  : M (yield * Object) :=
  order <- Go.range_map Pairs ;;
  '(dict, keys) <- collect order [] [] ;;
  let keys := Go.sort_Strings keys in
  match scan offset keys 0 with
  | Some k =>
      let found := Go.lookup String.eqb dict k in
      ret ((option_map Key found, option_map Value found),
           Dict Pairs (offset + 1))
  | None => ret (absent, Dict Pairs offset)
  end.

Definition Dict_Reset (Pairs : list (HashKey * DictPair)) (offset : Z)
  : Object :=
  Dict Pairs 0.

(** The [Iterable] interface: String, Array and Dict have the two methods;
    asserting it of another variant fails. *)
Definition Iterable (o : Object) : bool :=
  match o with
  | String _ _ | Array _ _ | Dict _ _ => true
  | _ => false
  end.

Definition Next (o : Object) : M (result (yield * Object)) :=
  match o with
  | String v off => ret (String_Next v off)
  | Array es off => ret (Array_Next es off)
  | Dict m off => r <- Dict_Next m off ;; ret (Ok r)
  | _ => ret (Panic "not Iterable")
  end.

Definition Reset (o : Object) : result Object :=
  match o with
  | String v off => Ok (String_Reset v off)
  | Array es off => Ok (Array_Reset es off)
  | Dict m off => Ok (Dict_Reset m off)
  | _ => Panic "not Iterable"
  end.

(** [n] calls of [Next] in a row: what they return, and the receiver after
    the last one. *)
Fixpoint Next_n (n : nat) (o : Object) : M (result (list yield * Object)) :=
  match n with
  | O => ret (Ok ([], o))
  | S n' =>
      r <- Next o ;;
      match r with
      | Ok (y, o') =>
          rs <- Next_n n' o' ;;
          match rs with
          | Ok (ys, o'') => ret (Ok (y :: ys, o''))
          | Panic msg => ret (Panic msg)
          end
      | Panic msg => ret (Panic msg)
      end
  end.


(** A sequence of calls on one receiver. *)
Inductive call : Type :=
  | call_Next
  | call_Reset.

Fixpoint run (calls : list call) (o : Object)
  : M (result (list yield * Object)) :=
  match calls with
  | [] => ret (Ok ([], o))
  | call_Next :: rest =>
      r <- Next o ;;
      match r with
      | Ok (y, o') =>
          rs <- run rest o' ;;
          match rs with
          | Ok (ys, o'') => ret (Ok (y :: ys, o''))
          | Panic msg => ret (Panic msg)
          end
      | Panic msg => ret (Panic msg)
      end
  | call_Reset :: rest =>
      match Reset o with
      | Ok o' => run rest o'
      | Panic msg => ret (Panic msg)
      end
  end.

(** ** Vocabulary of the statements *)

(** Go's [<=] and [<] on strings: the order of the bytes. *)
Definition str_le (a b : string) : Prop := String.leb a b = true.

Definition str_lt (a b : string) : Prop := String.ltb a b = true.

(** What [String.Next] yields at offset [i] when the byte there is [c]. *)
Definition string_yield (i : nat) (c : ascii) : yield :=
  yields (Integer (Z.of_nat i)) (String (Go.string_of_byte c) 0).

(** The stored payload of an iterable value: everything but the cursor. *)
Definition same_payload (o o' : Object) : Prop :=
  match o, o' with
  | String v _, String v' _ => v = v'
  | Array es _, Array es' _ => es = es'
  | Dict m _, Dict m' _ => m = m'
  | _, _ => False
  end.

(** A Dict as the evaluator builds it: every entry is stored under the
    HashKey of its key, which is therefore hashable. *)
Definition keys_hashable (m : list (HashKey * DictPair)) : Prop :=
  Forall (fun e => Hashable_HashKey (Key (snd e)) = Some (fst e)) m.

(** The text under which [Dict.Next] files a pair: the rendering of its
    key (a hashable key renders the same whatever the supply). *)
Definition key_text (p : DictPair) : string := Render (Key p) [].

(** One turn of the first loop of [Dict.Next] on such a Dict. *)
Definition remember_pair (dict : list (string * DictPair))
    (e : HashKey * DictPair) : list (string * DictPair) :=
  Go.store String.eqb dict (key_text (snd e)) (snd e).

(** Two calls of [Inspect] in a row on the same value. *)
Definition Inspect_twice (o : Object) : M (string * string) :=
  s1 <- Inspect o ;;
  s2 <- Inspect o ;;
  ret (s1, s2).

(** A value whose rendering never depends on the order of a map: every
    Dict inside it, at any depth, has at most one pair.  Integer, Float,
    Boolean, Null, String, Function and the other variants that hold no
    value are such values. *)
Fixpoint order_free (o : Object) : bool :=
  match o with
  | ReturnValue v => order_free v
  | Array es _ => forallb order_free es
  | Dict m _ =>
      (List.length m <=? 1)%nat
      && forallb (fun e => match e with
                           | (_, (k, v)) => order_free k && order_free v
                           end) m
  | _ => true
  end.

(** An Array that holds a Dict of two pairs. *)
Definition array_of_dict : Object :=
  Array [Dict [ (String_HashKey "a", (String "a" 0, Integer 1));
                (String_HashKey "b", (String "b" 0, Integer 2)) ] 0] 0.

(** A Dict with two keys of different kinds that render as the same text:
    the Integer 1 and the String "1". *)
Definition colliding_pairs : list (HashKey * DictPair) :=
  [ (Integer_HashKey 1, (Integer 1, String "a" 0));
    (String_HashKey "1", (String "1" 0, String "b" 0)) ].

(** The Dict of the spec's scenario: "b" to 2 and "a" to 1. *)
Definition sample_pairs : list (HashKey * DictPair) :=
  [ (String_HashKey "b", (String "b" 0, Integer 2));
    (String_HashKey "a", (String "a" 0, Integer 1)) ].

(** An iterable value as the package builds it: the cursor starts at zero
    and only [Next] and [Reset] assign it, so it is never negative. *)
Definition well_formed (o : Object) : Prop :=
  match o with
  | String _ off | Array _ off => 0 <= off
  | Dict m off => 0 <= off /\ keys_hashable m
  | _ => False
  end.

(** The values an [int64] holds. *)
Definition int64_range (z : Z) : Prop := - 2 ^ 63 <= z < 2 ^ 63.

(** The [float64] 1.0. *)
Definition float_one : float64 := 0x3FF0000000000000.

(** The position of a variant in the declaration of [Object]. *)
Definition variant_index (o : Object) : nat :=
  match o with
  | Integer _ => 0
  | Float _ => 1
  | Boolean _ => 2
  | Null => 3
  | ReturnValue _ => 4
  | Error _ => 5
  | Function _ _ _ => 6
  | String _ _ => 7
  | Builtin _ => 8
  | Array _ _ => 9
  | Dict _ _ => 10
  | Continue => 11
  | Break => 12
  end%nat.

(** An iterable value whose cursor lies between zero and the number of
    items it iterates over. *)
Definition cursor_bounded (o : Object) : Prop :=
  match o with
  | String v off => 0 <= off <= Z.of_nat (String.length v)
  | Array es off => 0 <= off <= Z.of_nat (List.length es)
  | Dict m off => 0 <= off <= Z.of_nat (List.length m)
  | _ => False
  end.

(** The text of the String that a call of [Next] yielded as its value. *)
Definition yielded_text (y : yield) : string :=
  match snd y with
  | Some (String v _) => v
  | _ => ""
  end.

(** ** Facts about the library functions *)

Lemma nth_remove_at_Permutation {A : Type} (i : nat) (l : list A) (d : A) :
  (i < List.length l)%nat -> Permutation (nth i l d :: Go.remove_at i l) l.
Proof.
  revert i; induction l as [|x l IH]; intros i Hi; simpl in Hi; [lia|].
  destruct i as [|i]; simpl; [reflexivity|].
  etransitivity; [apply perm_swap|].
  constructor. apply IH. lia.
Qed.

Lemma remove_at_length {A : Type} (i : nat) (l : list A) :
  (i < List.length l)%nat ->
  List.length (Go.remove_at i l) = pred (List.length l).
Proof.
  revert i; induction l as [|x l IH]; intros i Hi; simpl in Hi; [lia|].
  destruct i as [|i]; simpl; [reflexivity|].
  rewrite IH by lia. destruct l; simpl in *; lia.
Qed.

Lemma remove_at_map {A B : Type} (f : A -> B) (i : nat) (l : list A) :
  Go.remove_at i (map f l) = map f (Go.remove_at i l).
Proof.
  revert i; induction l as [|x l IH]; intros [|i]; simpl; congruence.
Qed.

Lemma pick_Permutation {A : Type} (fuel seed : nat) (l : list A) :
  List.length l = fuel -> Permutation (Go.pick fuel seed l) l.
Proof.
  revert seed l; induction fuel as [|fuel IH]; intros seed l Hl.
  - destruct l; [constructor|discriminate].
  - destruct l as [|x l]; [discriminate|].
    cbn [Go.pick].
    set (n := List.length (x :: l)).
    assert (Hi : (seed mod n < n)%nat)
      by (apply Nat.mod_upper_bound; subst n; simpl; lia).
    etransitivity; [|apply (nth_remove_at_Permutation _ _ x Hi)].
    constructor. apply IH.
    rewrite remove_at_length by exact Hi. subst n; simpl in *; lia.
Qed.

(** Whatever the run time draws, [range] visits every entry once. *)
Lemma permute_Permutation {A : Type} (seed : nat) (l : list A) :
  Permutation (Go.permute seed l) l.
Proof. apply pick_Permutation; reflexivity. Qed.

Lemma pick_map {A B : Type} (f : A -> B) (fuel seed : nat) (l : list A) :
  Go.pick fuel seed (map f l) = map f (Go.pick fuel seed l).
Proof.
  revert seed l; induction fuel as [|fuel IH]; intros seed l.
  - destruct l; reflexivity.
  - destruct l as [|x l]; [reflexivity|].
    cbn [Go.pick map]. rewrite <- (map_cons f x l).
    rewrite length_map, remove_at_map, IH, (map_nth f). reflexivity.
Qed.

Lemma permute_map {A B : Type} (f : A -> B) (seed : nat) (l : list A) :
  Go.permute seed (map f l) = map f (Go.permute seed l).
Proof. unfold Go.permute. rewrite length_map. apply pick_map. Qed.

Lemma range_map_map {A B : Type} (f : A -> B) (l : list A) (rnd : Go.rand) :
  Go.range_map (map f l) rnd
  = (map f (fst (Go.range_map l rnd)), snd (Go.range_map l rnd)).
Proof.
  unfold Go.range_map. destruct (Go.draw rnd) as [seed rnd'].
  simpl. now rewrite permute_map.
Qed.

Lemma range_map_Permutation {A : Type} (l : list A) (rnd : Go.rand) :
  Permutation (fst (Go.range_map l rnd)) l.
Proof.
  unfold Go.range_map. destruct (Go.draw rnd) as [seed rnd'].
  apply permute_Permutation.
Qed.

(** Every order is one the run time may choose. *)
Lemma pick_complete {A : Type} (l' : list A) :
  forall l, Permutation l l' ->
  exists seed, Go.pick (List.length l) seed l = l'.
Proof.
  induction l' as [|y l' IH]; intros l Hp.
  - apply Permutation_sym, Permutation_nil in Hp. subst. now exists 0%nat.
  - assert (Hin : In y l)
      by (apply (Permutation_in y (Permutation_sym Hp)); now left).
    destruct (in_split _ _ Hin) as (l1 & l2 & ->).
    assert (Hrest : Permutation (l1 ++ l2) l').
    { apply Permutation_cons_inv with (a := y).
      etransitivity; [apply Permutation_middle|exact Hp]. }
    destruct (IH _ Hrest) as [seed' Hseed'].
    set (n := List.length (l1 ++ y :: l2)).
    assert (Hn : n = S (List.length (l1 ++ l2)))
      by (subst n; rewrite !length_app; simpl; lia).
    assert (Hi : (List.length l1 < n)%nat)
      by (subst n; rewrite length_app; simpl; lia).
    exists (List.length l1 + n * seed')%nat.
    rewrite Hn at 1.
    destruct (l1 ++ y :: l2)%list as [|x rest] eqn:El.
    { destruct l1; discriminate. }
    cbn [Go.pick]. fold n.
    replace ((List.length l1 + n * seed') mod n)%nat with (List.length l1)
      by (rewrite Nat.Div0.add_mod, Nat.mul_comm, Nat.Div0.mod_mul,
            Nat.add_0_r, Nat.Div0.mod_mod, Nat.mod_small; auto).
    replace ((List.length l1 + n * seed') / n)%nat with seed'
      by (rewrite Nat.mul_comm, Nat.div_add by lia;
          rewrite Nat.div_small; auto).
    rewrite <- El.
    assert (Hnth : nth (List.length l1) (l1 ++ y :: l2)%list x = y)
      by (rewrite app_nth2, Nat.sub_diag; auto).
    assert (Hrem : Go.remove_at (List.length l1) (l1 ++ y :: l2)%list
                   = (l1 ++ l2)%list).
    { clear. induction l1; simpl; congruence. }
    rewrite Hnth, Hrem, Hseed'. reflexivity.
Qed.

Lemma permute_complete {A : Type} (l l' : list A) :
  Permutation l l' -> exists seed, Go.permute seed l = l'.
Proof. apply pick_complete. Qed.

(** *** The order of strings and [sort.Strings] *)

Lemma ascii_compare_trans_lt (a b c : ascii) :
  Ascii.compare a b = Lt -> Ascii.compare b c = Lt -> Ascii.compare a c = Lt.
Proof.
  unfold Ascii.compare. rewrite !N.compare_lt_iff. apply N.lt_trans.
Qed.

Lemma compare_trans_lt (a : string) :
  forall b c, String.compare a b = Lt -> String.compare b c = Lt ->
  String.compare a c = Lt.
Proof.
  induction a as [|x a IH]; intros [|y b] [|z c]; simpl; try congruence.
  destruct (Ascii.compare x y) eqn:Exy; try discriminate;
    destruct (Ascii.compare y z) eqn:Eyz; try discriminate; intros Hab Hbc.
  - apply Ascii.compare_eq_iff in Exy, Eyz. subst.
    assert (Hzz : Ascii.compare z z = Eq)
      by (unfold Ascii.compare; apply N.compare_refl).
    rewrite Hzz. eauto.
  - apply Ascii.compare_eq_iff in Exy. subst. now rewrite Eyz.
  - apply Ascii.compare_eq_iff in Eyz. subst. now rewrite Exy.
  - now rewrite (ascii_compare_trans_lt _ _ _ Exy Eyz).
Qed.

Lemma str_le_trans (a b c : string) : str_le a b -> str_le b c -> str_le a c.
Proof.
  unfold str_le, String.leb. intros Hab Hbc.
  destruct (String.compare a b) eqn:Eab; try discriminate;
    destruct (String.compare b c) eqn:Ebc; try discriminate.
  - apply String.compare_eq_iff in Eab. subst. now rewrite Ebc.
  - apply String.compare_eq_iff in Eab. subst. now rewrite Ebc.
  - apply String.compare_eq_iff in Ebc. subst. now rewrite Eab.
  - now rewrite (compare_trans_lt _ _ _ Eab Ebc).
Qed.

Lemma str_le_refl (a : string) : str_le a a.
Proof. destruct (String.leb_total a a); assumption. Qed.

Lemma insert_Permutation (k : string) (l : list string) :
  Permutation (Go.insert k l) (k :: l).
Proof.
  induction l as [|x l IH]; simpl; [reflexivity|].
  destruct (String.leb k x); [reflexivity|].
  etransitivity; [|apply perm_swap]. now constructor.
Qed.

Lemma sort_Strings_Permutation (l : list string) :
  Permutation (Go.sort_Strings l) l.
Proof.
  induction l as [|k l IH]; simpl; [constructor|].
  etransitivity; [apply insert_Permutation|]. now constructor.
Qed.

Lemma insert_Sorted (k : string) (l : list string) :
  Sorted str_le l -> Sorted str_le (Go.insert k l).
Proof.
  induction 1 as [|x l Hs IH Hd]; simpl.
  - repeat constructor.
  - destruct (String.leb k x) eqn:E.
    + repeat constructor; assumption.
    + assert (Hxk : str_le x k)
        by (destruct (String.leb_total k x); [congruence|assumption]).
      constructor; [exact IH|].
      destruct Hd as [|y l Hxy]; simpl.
      * now constructor.
      * destruct (String.leb k y); now constructor.
Qed.

Lemma sort_Strings_Sorted (l : list string) :
  StronglySorted str_le (Go.sort_Strings l).
Proof.
  apply Sorted_StronglySorted.
  - intros a b c. apply str_le_trans.
  - induction l; simpl; [constructor|now apply insert_Sorted].
Qed.

(** A slice has one sorted arrangement. *)
Lemma StronglySorted_unique (l1 : list string) :
  forall l2, StronglySorted str_le l1 -> StronglySorted str_le l2 ->
  Permutation l1 l2 -> l1 = l2.
Proof.
  induction l1 as [|a l1 IH]; intros l2 H1 H2 Hp.
  - now apply Permutation_nil in Hp.
  - destruct l2 as [|b l2];
      [apply Permutation_sym, Permutation_nil in Hp; discriminate|].
    inversion H1 as [|? ? H1' Ha]; inversion H2 as [|? ? H2' Hb]; subst.
    assert (Hab : a = b).
    { assert (Hin1 : In a (b :: l2))
        by (apply (Permutation_in a Hp); now left).
      assert (Hin2 : In b (a :: l1))
        by (apply (Permutation_in b (Permutation_sym Hp)); now left).
      destruct Hin1 as [->|Hin1]; [reflexivity|].
      destruct Hin2 as [->|Hin2]; [reflexivity|].
      rewrite Forall_forall in Ha, Hb.
      apply String.leb_antisym; [apply Ha|apply Hb]; assumption. }
    subst b. f_equal. apply IH; try assumption.
    now apply Permutation_cons_inv in Hp.
Qed.

Lemma sort_Strings_order_irrelevant (l l' : list string) :
  Permutation l l' -> Go.sort_Strings l = Go.sort_Strings l'.
Proof.
  intros Hp. apply StronglySorted_unique; try apply sort_Strings_Sorted.
  etransitivity; [apply sort_Strings_Permutation|].
  etransitivity; [exact Hp|].
  apply Permutation_sym, sort_Strings_Permutation.
Qed.

(** *** Maps *)

Section MapFacts.
Context {K V : Type} (eqb : K -> K -> bool).
Hypothesis eqb_eq : forall a b, eqb a b = true <-> a = b.

Lemma eqb_same (k : K) : eqb k k = true.
Proof. now apply eqb_eq. Qed.

Lemma eqb_other (k k' : K) : k <> k' -> eqb k' k = false.
Proof.
  intros Hne. destruct (eqb k' k) eqn:E; [|reflexivity].
  apply eqb_eq in E. congruence.
Qed.

Lemma lookup_store_same (m : list (K * V)) k (v : V) :
  Go.lookup eqb (Go.store eqb m k v) k = Some v.
Proof.
  induction m as [|[k' v'] m IH]; simpl.
  - now rewrite eqb_same.
  - destruct (eqb k k') eqn:E; simpl.
    + now rewrite eqb_same.
    + now rewrite E.
Qed.

Lemma lookup_store_other (m : list (K * V)) k k' (v : V) :
  k <> k' ->
  Go.lookup eqb (Go.store eqb m k v) k' = Go.lookup eqb m k'.
Proof.
  intros Hne. induction m as [|[k0 v0] m IH]; simpl.
  - now rewrite (eqb_other _ _ Hne).
  - destruct (eqb k k0) eqn:E; simpl.
    + apply eqb_eq in E. subst k0. now rewrite (eqb_other _ _ Hne).
    + now rewrite IH.
Qed.
End MapFacts.

Lemma HashKey_eqb_eq (a b : HashKey) : HashKey_eqb a b = true <-> a = b.
Proof.
  destruct a as [ta va], b as [tb vb]. unfold HashKey_eqb. simpl.
  rewrite andb_true_iff, String.eqb_eq, Z.eqb_eq.
  split; [intros [-> ->]; reflexivity|intros H; now inversion H].
Qed.

(** ** Rendering *)

Lemma sequence_renders {A : Type} (ms : list (M A)) :
  forall rnd,
  Forall2 (fun m a => exists r, a = fst (m r)) ms (fst (sequence ms rnd)).
Proof.
  induction ms as [|m ms IH]; intros rnd; simpl.
  - constructor.
  - unfold bind, ret. destruct (m rnd) as [a r1] eqn:Em.
    specialize (IH r1). destruct (sequence ms r1) as [l r2]. simpl in *.
    constructor; [|exact IH].
    exists rnd. now rewrite Em.
Qed.

Lemma Inspect_Array (es : list Object) (off : Z) (rnd : Go.rand) :
  Inspect (Array es off) rnd
  = ("[" ++ Go.Join (fst (sequence (map Inspect es) rnd)) ", " ++ "]",
     snd (sequence (map Inspect es) rnd)).
Proof.
  cbn [Inspect]. unfold bind, ret.
  now destruct (sequence (map Inspect es) rnd).
Qed.

Lemma Inspect_Dict (m : list (HashKey * DictPair)) (off : Z) :
  Inspect (Dict m off)
  = (order <- Go.range_map (map Inspect_pair m) ;;
     pairs <- sequence order ;;
     ret ("{" ++ Go.Join pairs ", " ++ "}")).
Proof.
  cbn [Inspect].
  now rewrite (map_ext _ Inspect_pair) by (now intros [h [k v]]).
Qed.

(** C7.  An empty Array renders as the two brackets; every Array renders as
    an opening bracket, the renderings of its elements in storage order
    separated by a comma and a space, and a closing bracket; the Array of
    the Integers 1 and 2 renders as [[1, 2]]. *)
Theorem Array_Inspect_spec :
  (forall off rnd, Render (Array [] off) rnd = "[]")
  /\ (forall es off rnd,
        exists elements,
          Forall2 (fun e s => exists r, s = Render e r) es elements
          /\ Render (Array es off) rnd
             = "[" ++ Go.Join elements ", " ++ "]")
  /\ (forall off rnd,
        Render (Array [Integer 1; Integer 2] off) rnd = "[1, 2]").
Proof.
  split; [reflexivity|]. split; [|reflexivity].
  intros es off rnd. unfold Render at 2. rewrite Inspect_Array. simpl fst.
  exists (fst (sequence (map Inspect es) rnd)). split; [|reflexivity].
  pose proof (sequence_renders (map Inspect es) rnd) as H.
  remember (fst (sequence (map Inspect es) rnd)) as l eqn:El. clear El.
  revert l H. induction es as [|e es IH]; intros l H; inversion H; subst.
  - constructor.
  - constructor; [assumption|]. now apply IH.
Qed.

(** C6.  An empty Dict renders as the two braces; every Dict renders as an
    opening brace, then, separated by a comma and a space, one text
    [key: value] for each stored pair, the pairs taken once each in some
    order, then a closing brace. *)
Theorem Dict_Inspect_spec :
  (forall off rnd, Render (Dict [] off) rnd = "{}")
  /\ (forall m off rnd,
        exists (order : list DictPair) (pairs : list string),
          Permutation order (map snd m)
          /\ Forall2 (fun p s => exists r1 r2,
                        s = Sprintf_pair (Render (Key p) r1)
                                         (Render (Value p) r2))
               order pairs
          /\ Render (Dict m off) rnd = "{" ++ Go.Join pairs ", " ++ "}").
Proof.
  split; [intros off [|n rnd]; reflexivity|].
  intros m off rnd. unfold Render at 3. rewrite Inspect_Dict.
  unfold bind at 1. rewrite range_map_map.
  pose proof (range_map_Permutation m rnd) as Hp.
  destruct (Go.range_map m rnd) as [visited rnd0]. simpl fst in *. simpl snd.
  unfold bind, ret.
  pose proof (sequence_renders (map Inspect_pair visited) rnd0) as H.
  destruct (sequence (map Inspect_pair visited) rnd0) as [pairs rnd1].
  simpl fst in *.
  exists (map snd visited), pairs. split; [now apply Permutation_map|].
  split; [|reflexivity].
  clear Hp. revert pairs H.
  induction visited as [|e visited IH]; intros pairs H; inversion H; subst.
  - constructor.
  - constructor; [|now apply IH].
    match goal with Hx : exists r, _ |- _ => destruct Hx as [r ->] end.
    unfold Inspect_pair, bind, ret, Render.
    destruct (Inspect (Key (snd e)) r) as [ks r1] eqn:Ek.
    destruct (Inspect (Value (snd e)) r1) as [vs r2] eqn:Ev.
    exists r, r1. simpl. now rewrite Ek, Ev.
Qed.

(** C8.  A Function renders as [unda(], its parameter names separated by a
    comma and a space, [) {], a line feed, the rendering of its body, a line
    feed and [}]; with the parameters [x] and [y] and a body that renders
    as [rudisha x + y;] the result is those three lines. *)
Theorem Function_Inspect_spec :
  (forall ps body env rnd,
     Render (Function ps body env) rnd
     = "unda(" ++ Go.Join (map Identifier_String ps) ", " ++ ") {" ++ LF
       ++ BlockStatement_String body ++ LF ++ "}")
  /\ (forall env rnd,
        Render (Function [mkIdentifier "x"; mkIdentifier "y"]
                  (mkBlockStatement "rudisha x + y;") env) rnd
        = "unda(x, y) {" ++ LF ++ "rudisha x + y;" ++ LF ++ "}").
Proof.
  split; [|reflexivity].
  intros ps body env rnd. unfold Render. cbn [Inspect ret fst].
  unfold Function_Inspect, LF. cbn [append]. reflexivity.
Qed.

(** ** Hashing *)

Lemma HashKey_Type (o : Object) (h : HashKey) :
  Hashable_HashKey o = Some h -> hk_Type h = Type_ o.
Proof. destruct o; simpl; intros H; inversion H; reflexivity. Qed.

Lemma uint64_injective (a b : Z) :
  int64_range a -> int64_range b -> Go.uint64 a = Go.uint64 b -> a = b.
Proof.
  unfold int64_range, Go.uint64.
  change (2 ^ 63) with 9223372036854775808.
  change (2 ^ 64) with 18446744073709551616.
  intros Ha Hb. rewrite !Z.mod_eq by lia. lia.
Qed.

(** C3.  Two Integers have the same value exactly when they have the same
    HashKey. *)
Theorem Integer_HashKey_injective (a b : Z) :
  int64_range a -> int64_range b ->
  (a = b <-> Integer_HashKey a = Integer_HashKey b).
Proof.
  intros Ha Hb. split; [now intros ->|].
  unfold Integer_HashKey. intros H. inversion H.
  now apply uint64_injective.
Qed.

(** C2.  Hashable values of different kinds have different HashKeys; so do
    the Integer 1 and the Float 1.0, and a map that received both under
    their HashKeys returns each under its own. *)
Theorem HashKey_kinds_distinct :
  (forall a b ha hb,
     Hashable_HashKey a = Some ha -> Hashable_HashKey b = Some hb ->
     Type_ a <> Type_ b -> ha <> hb)
  /\ Hashable_HashKey (Integer 1) <> Hashable_HashKey (Float float_one)
  /\ (forall (m : list (HashKey * DictPair)) (vi vf : Object),
        let ki := Integer_HashKey 1 in
        let kf := Float_HashKey float_one in
        let m' := Go.store HashKey_eqb
                    (Go.store HashKey_eqb m ki (Integer 1, vi))
                    kf (Float float_one, vf) in
        Go.lookup HashKey_eqb m' ki = Some (Integer 1, vi)
        /\ Go.lookup HashKey_eqb m' kf = Some (Float float_one, vf)).
Proof.
  split; [|split].
  - intros a b ha hb Ha Hb Hne Heq. subst hb.
    apply HashKey_Type in Ha, Hb. congruence.
  - simpl. intros H. inversion H.
  - intros m vi vf ki kf m'. subst m'. split.
    + rewrite (lookup_store_other _ HashKey_eqb_eq).
      * apply (lookup_store_same _ HashKey_eqb_eq).
      * subst ki kf. intros H. inversion H.
    + apply (lookup_store_same _ HashKey_eqb_eq).
Qed.

(** C4.  Two Floats whose renderings are the same text have the same
    HashKey, whatever their bit patterns. *)
Theorem Float_HashKey_of_text (a b : float64) (r1 r2 : Go.rand) :
  Render (Float a) r1 = Render (Float b) r2 ->
  Hashable_HashKey (Float a) = Hashable_HashKey (Float b).
Proof.
  unfold Render. simpl. unfold Float_HashKey. now intros ->.
Qed.

(** ** Iteration over a String *)

Lemma str_length_append (a b : string) :
  String.length (a ++ b) = (String.length a + String.length b)%nat.
Proof. induction a; simpl; congruence. Qed.

Lemma str_append_assoc (a b c : string) : (a ++ b) ++ c = a ++ b ++ c.
Proof. induction a; simpl; congruence. Qed.

Lemma index_append (pre : string) (c : ascii) (suf : string) :
  Go.index (pre ++ String.String c suf) (Z.of_nat (String.length pre))
  = Some c.
Proof.
  unfold Go.index.
  destruct (Z.ltb_spec (Z.of_nat (String.length pre)) 0) as [H|_]; [lia|].
  rewrite Nat2Z.id. induction pre; simpl; auto.
Qed.

Lemma Next_n_String_exhausted (v : string) (off : Z) (extra : nat) rnd :
  Z.of_nat (String.length v) <= off ->
  Next_n extra (String v off) rnd
  = (Ok (repeat absent extra, String v off), rnd).
Proof.
  intros Hoff. induction extra as [|extra IH]; [reflexivity|].
  cbn [Next_n Next]. unfold bind, ret, String_Next.
  destruct (Z.gtb_spec (Z.of_nat (String.length v)) off) as [H|_]; [lia|].
  fold (ret (A := result (yield * Object)) (Ok (absent, String v off))).
  unfold bind, ret in IH. now rewrite IH.
Qed.

Lemma Next_n_String_from (suf : string) :
  forall (pre : string) (extra : nat) rnd,
  Next_n (String.length suf + extra)
    (String (pre ++ suf) (Z.of_nat (String.length pre))) rnd
  = (Ok ((map (fun ic => string_yield (fst ic) (snd ic))
            (combine (seq (String.length pre) (String.length suf))
               (list_ascii_of_string suf))
          ++ repeat absent extra)%list,
         String (pre ++ suf) (Z.of_nat (String.length (pre ++ suf)))),
     rnd).
Proof.
  induction suf as [|c suf IH]; intros pre extra rnd.
  - simpl plus. rewrite Next_n_String_exhausted.
    + now rewrite str_length_append, Nat.add_0_r.
    + rewrite str_length_append. simpl. lia.
  - cbn [String.length plus Next_n Next]. unfold bind at 1, ret at 1.
    unfold String_Next. rewrite index_append.
    destruct (Z.gtb_spec
                (Z.of_nat (String.length (pre ++ String.String c suf)))
                (Z.of_nat (String.length pre))) as [_|H];
      [|rewrite str_length_append in H; simpl in H; lia].
    specialize (IH (pre ++ String.String c EmptyString) extra rnd).
    rewrite str_append_assoc in IH. simpl append in IH.
    rewrite str_length_append in IH. simpl String.length in IH.
    replace (Z.of_nat (String.length pre + 1))
      with (Z.of_nat (String.length pre) + 1) in IH by lia.
    unfold bind. rewrite IH. unfold ret.
    rewrite Nat.add_1_r. reflexivity.
Qed.

Lemma rune_count_string_of_byte (c : ascii) :
  Go.rune_count (Go.string_of_byte c) = 1%nat.
Proof. destruct c as [[] [] [] [] [] [] [] []]; reflexivity. Qed.

(** C5.  After [Reset], the first [n] calls of [Next] on a String of [n]
    bytes yield the offsets 0 to [n-1] in increasing order, each with the
    String of the one character whose code point is the byte at that
    offset; every further call yields (absent, absent) and leaves the
    String as it is, until it is reset. *)
Theorem String_Next_pass (v : string) (off : Z) (extra : nat) rnd :
  let n := String.length v in
  let pairs := map (fun ic => string_yield (fst ic) (snd ic))
                 (combine (seq 0 n) (list_ascii_of_string v)) in
  Reset (String v off) = Ok (String v 0)
  /\ List.length pairs = n
  /\ Next_n (n + extra) (String v 0) rnd
     = (Ok ((pairs ++ repeat absent extra)%list, String v (Z.of_nat n)),
        rnd)
  /\ Next_n extra (String v (Z.of_nat n)) rnd
     = (Ok (repeat absent extra, String v (Z.of_nat n)), rnd)
  /\ (forall c, Go.rune_count (Go.string_of_byte c) = 1%nat).
Proof.
  intros n pairs. split; [reflexivity|]. split; [|split; [|split]].
  - subst pairs. rewrite length_map, length_combine, length_seq.
    assert (H : List.length (list_ascii_of_string v) = n)
      by (subst n; induction v; simpl; congruence).
    rewrite H. apply Nat.min_id.
  - apply (Next_n_String_from v EmptyString extra rnd).
  - apply Next_n_String_exhausted. lia.
  - apply rune_count_string_of_byte.
Qed.

(** ** Iteration over a Dict *)

Lemma Inspect_hashable (o : Object) (h : HashKey) (rnd : Go.rand) :
  Hashable_HashKey o = Some h -> Inspect o rnd = (Render o [], rnd).
Proof. destruct o; simpl; intros H; try discriminate; reflexivity. Qed.

Lemma keys_hashable_Permutation (m m' : list (HashKey * DictPair)) :
  Permutation m m' -> keys_hashable m -> keys_hashable m'.
Proof.
  unfold keys_hashable. rewrite !Forall_forall. intros Hp H e He.
  apply H. now apply (Permutation_in e (Permutation_sym Hp)).
Qed.

Lemma collect_hashable (order : list (HashKey * DictPair)) :
  keys_hashable order ->
  forall dict keys rnd,
  collect order dict keys rnd
  = ((fold_left remember_pair order dict,
      (keys ++ map (fun e => key_text (snd e)) order)%list), rnd).
Proof.
  induction 1 as [|[h p] order Hh _ IH]; intros dict keys rnd; simpl.
  - now rewrite app_nil_r.
  - unfold bind. simpl in Hh. rewrite !(Inspect_hashable _ _ _ Hh).
    rewrite IH, <- app_assoc. reflexivity.
Qed.

(** [Dict.Next] on a Dict whose keys are hashable: the sorted keys do not
    depend on the order of the visit; the map from text to pair may. *)
Lemma Dict_Next_hashable (m : list (HashKey * DictPair)) (off : Z) rnd :
  keys_hashable m ->
  Dict_Next m off rnd
  = (match scan off
             (Go.sort_Strings (map (fun e => key_text (snd e)) m)) 0 with
     | Some k =>
         let found :=
           Go.lookup String.eqb
             (fold_left remember_pair (fst (Go.range_map m rnd)) []) k in
         ((option_map Key found, option_map Value found), Dict m (off + 1))
     | None => (absent, Dict m off)
     end, snd (Go.range_map m rnd)).
Proof.
  intros Hm. unfold Dict_Next, bind.
  pose proof (range_map_Permutation m rnd) as Hp.
  destruct (Go.range_map m rnd) as [order rnd0]. simpl fst in *. simpl snd.
  rewrite collect_hashable
    by (eapply keys_hashable_Permutation; [apply Permutation_sym|]; eauto).
  simpl app.
  rewrite (sort_Strings_order_irrelevant _
             (map (fun e => key_text (snd e)) m))
    by now apply Permutation_map.
  now destruct (scan off _ 0).
Qed.

Lemma scan_nth_error (off : Z) (keys : list string) :
  forall idx, idx <= off ->
  scan off keys idx = nth_error keys (Z.to_nat (off - idx)).
Proof.
  induction keys as [|k keys IH]; intros idx Hle; simpl.
  - now rewrite nth_error_nil.
  - destruct (Z.eqb_spec off idx) as [->|Hne].
    + now rewrite Z.sub_diag.
    + rewrite IH by lia.
      replace (Z.to_nat (off - idx)) with (S (Z.to_nat (off - (idx + 1))))
        by lia.
      reflexivity.
Qed.

Lemma scan_In (off : Z) (keys : list string) :
  forall idx k, scan off keys idx = Some k -> In k keys.
Proof.
  induction keys as [|k0 keys IH]; intros idx k; simpl; [discriminate|].
  destruct (off =? idx); [intros [= ->]; now left|].
  intros H. right. eauto.
Qed.

Lemma lookup_remembered_other (order : list (HashKey * DictPair)) :
  forall dict k,
  ~ In k (map (fun e => key_text (snd e)) order) ->
  Go.lookup String.eqb (fold_left remember_pair order dict) k
  = Go.lookup String.eqb dict k.
Proof.
  induction order as [|e order IH]; intros dict k Hk; simpl; [reflexivity|].
  simpl in Hk. rewrite IH by tauto. unfold remember_pair.
  apply (lookup_store_other _ String.eqb_eq). tauto.
Qed.

(** Every text of [keys] has a pair in [dict]. *)
Lemma lookup_remembered_Some (order : list (HashKey * DictPair)) :
  forall dict k,
  In k (map (fun e => key_text (snd e)) order) ->
  exists p, Go.lookup String.eqb (fold_left remember_pair order dict) k
            = Some p.
Proof.
  induction order as [|e order IH]; intros dict k Hk; simpl in *; [tauto|].
  destruct (in_dec string_dec k (map (fun e => key_text (snd e)) order))
    as [Hin|Hout]; [now apply IH|].
  destruct Hk as [<-|Hk]; [|tauto].
  rewrite lookup_remembered_other by assumption.
  exists (snd e). apply (lookup_store_same _ String.eqb_eq).
Qed.

(** With pairwise distinct texts, each text leads to its own pair. *)
Lemma lookup_remembered (order : list (HashKey * DictPair)) :
  NoDup (map (fun e => key_text (snd e)) order) ->
  forall dict e, In e order ->
  Go.lookup String.eqb (fold_left remember_pair order dict)
    (key_text (snd e)) = Some (snd e).
Proof.
  induction order as [|e0 order IH]; intros Hnd dict e He; simpl in *;
    [tauto|].
  inversion Hnd as [|? ? Hout Hnd']; subst.
  destruct He as [->|He]; [|now apply IH].
  rewrite lookup_remembered_other by assumption.
  apply (lookup_store_same _ String.eqb_eq).
Qed.

(** ** The frame of [Next] and [Reset] *)

Lemma get_Some (s : string) :
  forall n, (n < String.length s)%nat -> exists c, String.get n s = Some c.
Proof.
  induction s as [|c s IH]; intros n Hn; simpl in Hn; [lia|].
  destruct n as [|n]; simpl; [now exists c|]. apply IH. lia.
Qed.

Lemma index_Some (s : string) (i : Z) :
  0 <= i < Z.of_nat (String.length s) -> exists c, Go.index s i = Some c.
Proof.
  intros Hi. unfold Go.index.
  destruct (Z.ltb_spec i 0) as [H|_]; [lia|]. apply get_Some. lia.
Qed.

Lemma element_Some (es : list Object) (i : Z) :
  0 <= i < Z.of_nat (List.length es) -> exists e, element es i = Some e.
Proof.
  intros Hi. unfold element.
  destruct (Z.ltb_spec i 0) as [H|_]; [lia|].
  destruct (nth_error es (Z.to_nat i)) as [e|] eqn:E; [now exists e|].
  apply nth_error_None in E. lia.
Qed.

Lemma same_payload_trans (a b c : Object) :
  same_payload a b -> same_payload b c -> same_payload a c.
Proof.
  destruct a, b; simpl; try contradiction;
    destruct c; simpl; try contradiction; congruence.
Qed.

(** One call of [Next] on a well-formed receiver: it returns, the payload
    is the one before the call, and when it yields (absent, absent) the
    receiver is the one before the call. *)
Lemma Next_frame (o : Object) rnd :
  well_formed o ->
  exists y o' rnd',
    Next o rnd = (Ok (y, o'), rnd')
    /\ same_payload o o' /\ well_formed o' /\ (y = absent -> o' = o).
Proof.
  destruct o as [| | | | | | |v off| |es off|m off| |]; simpl;
    try contradiction.
  - intros Hoff. unfold ret, String_Next.
    destruct (Z.gtb_spec (Z.of_nat (String.length v)) off) as [Hlt|Hge].
    + destruct (index_Some v off) as [c ->]; [lia|].
      do 3 eexists. split; [reflexivity|]. simpl.
      repeat split; [lia|discriminate].
    + do 3 eexists. split; [reflexivity|]. simpl. auto.
  - intros Hoff. unfold ret, Array_Next.
    destruct (Z.gtb_spec (Z.of_nat (List.length es)) off) as [Hlt|Hge].
    + destruct (element_Some es off) as [e ->]; [lia|].
      do 3 eexists. split; [reflexivity|]. simpl.
      repeat split; [lia|discriminate].
    + do 3 eexists. split; [reflexivity|]. simpl. auto.
  - intros [Hoff Hm]. unfold bind, ret. rewrite Dict_Next_hashable by exact Hm.
    destruct (scan off _ 0) as [k|] eqn:Es.
    + apply scan_In in Es.
      apply (Permutation_in k (sort_Strings_Permutation _)) in Es.
      assert (Hin : In k (map (fun e => key_text (snd e))
                            (fst (Go.range_map m rnd)))).
      { revert Es. apply Permutation_in, Permutation_map, Permutation_sym,
          range_map_Permutation. }
      destruct (lookup_remembered_Some _ [] k Hin) as [p Hp].
      cbv zeta. do 3 eexists. split; [reflexivity|]. simpl.
      repeat split; [lia|assumption|].
      unfold DictPair in *. rewrite Hp. discriminate.
    + do 3 eexists. split; [reflexivity|]. simpl. auto.
Qed.

Lemma Reset_frame (o : Object) :
  well_formed o ->
  exists o', Reset o = Ok o' /\ same_payload o o' /\ well_formed o'.
Proof.
  destruct o; simpl; try contradiction; intros H;
    eexists; (split; [reflexivity|]); simpl; intuition lia.
Qed.

(** C10.  Any sequence of [Next] and [Reset] calls on a String, an Array or
    a Dict returns, and the receiver it leaves holds the Value, the
    Elements or the Pairs it held before: only the cursor may differ.  A
    call of [Next] that yields (absent, absent) leaves the cursor too. *)
Theorem Next_Reset_frame (o : Object) (calls : list call) rnd :
  well_formed o ->
  (exists ys o' rnd',
     run calls o rnd = (Ok (ys, o'), rnd')
     /\ same_payload o o' /\ well_formed o')
  /\ (forall o' rnd', Next o rnd = (Ok (absent, o'), rnd') -> o' = o).
Proof.
  intros Hwf. split.
  - revert o rnd Hwf.
    induction calls as [|[|] calls IH]; intros o rnd Hwf; cbn [run].
    + exists [], o, rnd. split; [reflexivity|]. split; [|assumption].
      destruct o; simpl in *; auto.
    + destruct (Next_frame o rnd Hwf) as (y & o1 & r1 & E1 & Hp1 & Hw1 & _).
      destruct (IH o1 r1 Hw1) as (ys & o2 & r2 & E2 & Hp2 & Hw2).
      exists (y :: ys), o2, r2. unfold bind, ret. rewrite E1, E2.
      split; [reflexivity|]. split; [|assumption].
      eapply same_payload_trans; eauto.
    + destruct (Reset_frame o Hwf) as (o1 & E1 & Hp1 & Hw1).
      destruct (IH o1 rnd Hw1) as (ys & o2 & r2 & E2 & Hp2 & Hw2).
      exists ys, o2, r2. rewrite E1, E2.
      split; [reflexivity|]. split; [|assumption].
      eapply same_payload_trans; eauto.
  - intros o' rnd' E.
    destruct (Next_frame o rnd Hwf) as (y & o1 & r1 & E1 & _ & _ & Habs).
    rewrite E1 in E. inversion E; subst. now apply Habs.
Qed.

(** ** A pass over a Dict *)

Lemma str_le_neq_lt (a b : string) : str_le a b -> a <> b -> str_lt a b.
Proof.
  unfold str_le, str_lt, String.leb, String.ltb. intros Hle Hne.
  destruct (String.compare a b) eqn:E; try reflexivity; try discriminate.
  now apply String.compare_eq_iff in E.
Qed.

Lemma StronglySorted_strict (l : list string) :
  StronglySorted str_le l -> NoDup l -> StronglySorted str_lt l.
Proof.
  induction 1 as [|a l Hs IH Ha]; intros Hnd; constructor;
    inversion Hnd as [|? ? Hout Hnd']; subst.
  - now apply IH.
  - rewrite Forall_forall in *. intros b Hb.
    apply str_le_neq_lt; [now apply Ha|]. intros ->. contradiction.
Qed.

Lemma StronglySorted_map_inv {A : Type} (f : A -> string) (l : list A) :
  StronglySorted str_lt (map f l) ->
  StronglySorted (fun p q => str_lt (f p) (f q)) l.
Proof.
  induction l as [|a l IH]; simpl; intros H; constructor;
    inversion H as [|? ? Hs Ha]; subst.
  - now apply IH.
  - rewrite Forall_forall in *. intros b Hb. apply Ha. now apply in_map.
Qed.

Lemma nth_error_skipn {A : Type} (l : list A) :
  forall i x, nth_error l i = Some x -> skipn i l = x :: skipn (S i) l.
Proof.
  induction l as [|a l IH]; intros [|i] x; simpl; try discriminate.
  - now intros [= ->].
  - intros H. rewrite (IH _ _ H). reflexivity.
Qed.

Section DistinctTexts.

(** A Dict whose keys are hashable and render as pairwise distinct
    texts, and its pairs [out] in the order of those texts. *)
Variable m : list (HashKey * DictPair).
Hypothesis Hm : keys_hashable m.
Hypothesis Hnd : NoDup (map (fun e => key_text (snd e)) m).
Variable out : list DictPair.
Hypothesis Hout :
  Go.sort_Strings (map (fun e => key_text (snd e)) m) = map key_text out.
Hypothesis Hperm : Permutation (map snd m) out.

Lemma Next_Dict_at (i : nat) (p : DictPair) rnd :
  nth_error out i = Some p ->
  Next (Dict m (Z.of_nat i)) rnd
  = (Ok (yields (Key p) (Value p), Dict m (Z.of_nat (S i))),
     snd (Go.range_map m rnd)).
Proof.
  intros Hp. cbn [Next]. unfold bind, ret.
  rewrite Dict_Next_hashable by exact Hm.
  rewrite Hout, scan_nth_error by lia.
  rewrite Z.sub_0_r, Nat2Z.id, nth_error_map, Hp. cbn [option_map].
  assert (Hin : In p (map snd m)).
  { apply (Permutation_in p (Permutation_sym Hperm)).
    eapply nth_error_In; eauto. }
  apply in_map_iff in Hin. destruct Hin as (e & He & Hin).
  pose proof (range_map_Permutation m rnd) as Hord.
  assert (Hnd' : NoDup (map (fun e => key_text (snd e))
                          (fst (Go.range_map m rnd)))).
  { eapply Permutation_NoDup; [|exact Hnd].
    apply Permutation_map, Permutation_sym, Hord. }
  assert (Hin' : In e (fst (Go.range_map m rnd)))
    by (apply (Permutation_in e (Permutation_sym Hord)); exact Hin).
  pose proof (lookup_remembered _ Hnd' [] e Hin') as Hl.
  rewrite He in Hl. unfold DictPair in *. rewrite Hl. cbn [option_map].
  rewrite Nat2Z.inj_succ. reflexivity.
Qed.

Lemma Next_n_Dict_from (j : nat) :
  forall (i : nat) rnd, (i + j <= List.length out)%nat ->
  exists rnd',
    Next_n j (Dict m (Z.of_nat i)) rnd
    = (Ok (map (fun p => yields (Key p) (Value p))
             (firstn j (skipn i out)),
           Dict m (Z.of_nat (i + j))), rnd').
Proof.
  induction j as [|j IH]; intros i rnd Hij.
  - exists rnd. rewrite Nat.add_0_r. reflexivity.
  - destruct (nth_error out i) as [p|] eqn:Hp;
      [|apply nth_error_None in Hp; lia].
    destruct (IH (S i) (snd (Go.range_map m rnd))) as [rnd' E]; [lia|].
    exists rnd'. cbn [Next_n]. unfold bind at 1.
    rewrite (Next_Dict_at i p rnd Hp).
    unfold bind. rewrite E. unfold ret.
    rewrite (nth_error_skipn _ _ _ Hp). cbn [firstn map].
    now rewrite Nat.add_succ_r.
Qed.

Lemma Next_Dict_exhausted rnd :
  Next (Dict m (Z.of_nat (List.length out))) rnd
  = (Ok (absent, Dict m (Z.of_nat (List.length out))),
     snd (Go.range_map m rnd)).
Proof.
  cbn [Next]. unfold bind, ret.
  rewrite Dict_Next_hashable by exact Hm.
  rewrite Hout, scan_nth_error by lia.
  rewrite Z.sub_0_r, Nat2Z.id.
  assert (E : nth_error (map key_text out) (List.length out) = None)
    by (apply nth_error_None; now rewrite length_map).
  now rewrite E.
Qed.

End DistinctTexts.

(** A pass over a Dict whose keys render as pairwise distinct texts: after
    [Reset], as many calls of [Next] as there are pairs yield every pair
    once, in the strictly ascending order of the rendered keys, and the
    next call yields (absent, absent). *)
Theorem Dict_Next_pass_distinct_texts
    (m : list (HashKey * DictPair)) (off : Z) rnd :
  keys_hashable m ->
  NoDup (map (fun e => key_text (snd e)) m) ->
  let n := List.length m in
  exists (out : list DictPair) rnd',
    Permutation out (map snd m)
    /\ StronglySorted (fun p q => str_lt (key_text p) (key_text q)) out
    /\ Reset (Dict m off) = Ok (Dict m 0)
    /\ Next_n n (Dict m 0) rnd
       = (Ok (map (fun p => yields (Key p) (Value p)) out,
              Dict m (Z.of_nat n)), rnd')
    /\ forall r, fst (Next (Dict m (Z.of_nat n)) r)
                 = Ok (absent, Dict m (Z.of_nat n)).
Proof.
  intros Hm Hnd n.
  assert (Hs : Permutation
                 (Go.sort_Strings (map (fun e => key_text (snd e)) m))
                 (map key_text (map snd m)))
    by (rewrite map_map; apply sort_Strings_Permutation).
  apply Permutation_map_inv in Hs.
  destruct Hs as (out & Hout & Hperm).
  assert (Hlen : List.length out = n)
    by (subst n; rewrite <- (Permutation_length Hperm); apply length_map).
  destruct (Next_n_Dict_from m Hm Hnd out Hout Hperm n 0%nat rnd)
    as [rnd' E]; [lia|].
  exists out, rnd'. split; [now apply Permutation_sym|].
  split; [|split; [reflexivity|split]].
  - apply StronglySorted_map_inv. rewrite <- Hout.
    apply StronglySorted_strict; [apply sort_Strings_Sorted|].
    eapply Permutation_NoDup; [|exact Hnd].
    apply Permutation_sym, sort_Strings_Permutation.
  - cbn [skipn plus] in E. rewrite <- Hlen in E at 2.
    rewrite firstn_all in E. exact E.
  - intros r. rewrite <- Hlen.
    now rewrite (Next_Dict_exhausted m Hm out Hout).
Qed.

(** C1, at a Dict whose keys 1 and "1" render as the same text.  The Dict
    is one the evaluator builds: each pair is stored under the HashKey of
    its key and the two HashKeys differ.  When two calls of [Next] visit
    the map in the same order, the pass yields one pair twice and the other
    pair never. *)
Theorem Dict_Next_pass_colliding_texts :
  keys_hashable colliding_pairs
  /\ NoDup (map fst colliding_pairs)
  /\ Next_n 3 (Dict colliding_pairs 0) [0; 0; 0]%nat
     = (Ok ([ yields (String "1" 0) (String "b" 0);
              yields (String "1" 0) (String "b" 0);
              absent ],
            Dict colliding_pairs 2), [])
  /\ Next_n 3 (Dict colliding_pairs 0) [1; 1; 1]%nat
     = (Ok ([ yields (Integer 1) (String "a" 0);
              yields (Integer 1) (String "a" 0);
              absent ],
            Dict colliding_pairs 2), []).
Proof.
  split; [|split; [|split]].
  - repeat constructor.
  - repeat constructor; simpl; intuition discriminate.
  - reflexivity.
  - reflexivity.
Qed.

(** ** Purity of [Inspect] *)

Section ObjectInduction.

Variable P : Object -> Prop.
Hypothesis H_leaf :
  forall o,
    match o with
    | ReturnValue _ | Array _ _ | Dict _ _ => False
    | _ => True
    end -> P o.
Hypothesis H_ReturnValue : forall v, P v -> P (ReturnValue v).
Hypothesis H_Array : forall es off, Forall P es -> P (Array es off).
Hypothesis H_Dict :
  forall m off,
    Forall (fun e => P (Key (snd e)) /\ P (Value (snd e))) m ->
    P (Dict m off).

(** Induction on a value and on the values it holds. *)
Lemma Object_nested_ind : forall o, P o.
Proof.
  fix IH 1.
  intros [v|v|v| |v|msg|ps body env|v off|fn|es off|m off| |];
    try (apply H_leaf; exact I).
  - apply H_ReturnValue, IH.
  - apply H_Array.
    induction es as [|e es IHes]; constructor; [apply IH|exact IHes].
  - apply H_Dict.
    induction m as [|[h [k v]] m IHm]; constructor;
      [split; apply IH|exact IHm].
Qed.

End ObjectInduction.

Lemma sequence_stable {A : Type} (ms : list (M A)) :
  Forall (fun m => forall r1 r2, fst (m r1) = fst (m r2)) ms ->
  forall r1 r2, fst (sequence ms r1) = fst (sequence ms r2).
Proof.
  induction 1 as [|m ms Hm _ IH]; intros r1 r2; simpl; [reflexivity|].
  unfold bind, ret. specialize (Hm r1 r2).
  destruct (m r1) as [a1 r1'], (m r2) as [a2 r2']. simpl in Hm. subst a2.
  specialize (IH r1' r2').
  destruct (sequence ms r1') as [l1 ?], (sequence ms r2') as [l2 ?].
  simpl in *. now subst.
Qed.

Lemma permute_short {A : Type} (seed : nat) (l : list A) :
  (List.length l <= 1)%nat -> Go.permute seed l = l.
Proof.
  destruct l as [|x [|y l]]; cbn [List.length]; intros H; try lia;
    [reflexivity|].
  unfold Go.permute. cbn [List.length Go.pick]. now rewrite Nat.mod_1_r.
Qed.

Lemma Inspect_order_free (o : Object) :
  order_free o = true -> forall r1 r2, Render o r1 = Render o r2.
Proof.
  induction o as [o Ho|v IH|es off IH|m off IH] using Object_nested_ind.
  - destruct o; try contradiction; reflexivity.
  - exact IH.
  - cbn [order_free]. intros Hes r1 r2. unfold Render.
    rewrite !Inspect_Array. cbn [fst]. do 3 f_equal.
    apply sequence_stable.
    rewrite forallb_forall in Hes. rewrite Forall_forall in *.
    intros mi Hmi. apply in_map_iff in Hmi. destruct Hmi as (e & <- & He).
    apply IH; auto.
  - cbn [order_free]. intros Hm r1 r2.
    apply andb_true_iff in Hm. destruct Hm as [Hlen Hm].
    apply Nat.leb_le in Hlen.
    unfold Render. rewrite Inspect_Dict. unfold bind, Go.range_map.
    destruct (Go.draw r1) as [s1 r1'], (Go.draw r2) as [s2 r2'].
    rewrite !permute_short by now rewrite length_map.
    assert (Hst : forall q1 q2,
               fst (sequence (map Inspect_pair m) q1)
               = fst (sequence (map Inspect_pair m) q2)).
    { apply sequence_stable.
      rewrite forallb_forall in Hm. rewrite Forall_forall in *.
      intros mi Hmi. apply in_map_iff in Hmi. destruct Hmi as (e & <- & He).
      specialize (IH e He). specialize (Hm e He).
      destruct e as [h [k v]]. apply andb_true_iff in Hm.
      destruct Hm as [Hk Hv]. destruct IH as [IHk IHv]. simpl in IHk, IHv.
      intros q1 q2. unfold Inspect_pair, bind, ret. simpl.
      specialize (IHk Hk q1 q2). unfold Render in IHk.
      destruct (Inspect k q1) as [ks1 q1'], (Inspect k q2) as [ks2 q2'].
      specialize (IHv Hv q1' q2'). unfold Render in IHv.
      destruct (Inspect v q1') as [vs1 ?], (Inspect v q2') as [vs2 ?].
      simpl in *. now subst. }
    specialize (Hst r1' r2').
    destruct (sequence (map Inspect_pair m) r1') as [l1 ?],
             (sequence (map Inspect_pair m) r2') as [l2 ?].
    simpl in *. now subst.
Qed.

(** C9, as the code has it.  [Inspect] returns a text for every value,
    the empty Array, the empty Dict and the String of no byte included; it
    reads no cursor, so the text is the same wherever the cursor stands;
    and two calls in a row on the same value return the same text for
    every value in which no Dict, at any depth, has two pairs or more:
    Integer, Float, Boolean, Null, String and Function, and the Arrays
    whose elements are such values. *)
Theorem Inspect_pure :
  (forall off rnd,
     Render (Array [] off) rnd = "[]"
     /\ Render (Dict [] off) rnd = "{}"
     /\ Render (String "" off) rnd = "")
  /\ (forall v es m off off' rnd,
        Render (String v off) rnd = Render (String v off') rnd
        /\ Render (Array es off) rnd = Render (Array es off') rnd
        /\ Render (Dict m off) rnd = Render (Dict m off') rnd)
  /\ (forall o rnd,
        order_free o = true ->
        exists s rnd', Inspect_twice o rnd = ((s, s), rnd')).
Proof.
  split; [|split].
  - intros off [|n rnd]; repeat split.
  - intros. repeat split.
  - intros o rnd Ho. unfold Inspect_twice, bind, ret.
    pose proof (Inspect_order_free o Ho rnd) as H. unfold Render in H.
    destruct (Inspect o rnd) as [s1 r1]. specialize (H r1).
    destruct (Inspect o r1) as [s2 r2]. simpl in H. subst s2.
    now exists s1, r2.
Qed.

(** ** Iteration over an Array *)

Lemma element_app (pre : list Object) (e : Object) (suf : list Object) :
  element (pre ++ e :: suf)%list (Z.of_nat (List.length pre)) = Some e.
Proof.
  unfold element.
  destruct (Z.ltb_spec (Z.of_nat (List.length pre)) 0) as [H|_]; [lia|].
  rewrite Nat2Z.id, nth_error_app2, Nat.sub_diag by lia. reflexivity.
Qed.

Lemma Next_n_Array_exhausted (es : list Object) (off : Z) (extra : nat) rnd :
  Z.of_nat (List.length es) <= off ->
  Next_n extra (Array es off) rnd
  = (Ok (repeat absent extra, Array es off), rnd).
Proof.
  intros Hoff. induction extra as [|extra IH]; [reflexivity|].
  cbn [Next_n Next]. unfold bind, ret, Array_Next.
  destruct (Z.gtb_spec (Z.of_nat (List.length es)) off) as [H|_]; [lia|].
  fold (ret (A := result (yield * Object)) (Ok (absent, Array es off))).
  unfold bind, ret in IH. now rewrite IH.
Qed.

Lemma Next_n_Array_from (suf : list Object) :
  forall (pre : list Object) (extra : nat) rnd,
  Next_n (List.length suf + extra)
    (Array (pre ++ suf)%list (Z.of_nat (List.length pre))) rnd
  = (Ok ((map (fun ie => yields (Integer (Z.of_nat (fst ie))) (snd ie))
            (combine (seq (List.length pre) (List.length suf)) suf)
          ++ repeat absent extra)%list,
         Array (pre ++ suf)%list
           (Z.of_nat (List.length (pre ++ suf)%list))),
     rnd).
Proof.
  induction suf as [|e suf IH]; intros pre extra rnd.
  - simpl plus. rewrite Next_n_Array_exhausted.
    + now rewrite length_app, Nat.add_0_r.
    + rewrite length_app. simpl. lia.
  - cbn [List.length plus Next_n Next]. unfold bind at 1, ret at 1.
    unfold Array_Next. rewrite element_app.
    destruct (Z.gtb_spec
                (Z.of_nat (List.length (pre ++ e :: suf)%list))
                (Z.of_nat (List.length pre))) as [_|H];
      [|rewrite length_app in H; simpl in H; lia].
    specialize (IH (pre ++ [e])%list extra rnd).
    rewrite <- app_assoc in IH. simpl app in IH.
    rewrite length_app in IH. simpl List.length in IH.
    replace (Z.of_nat (List.length pre + 1))
      with (Z.of_nat (List.length pre) + 1) in IH by lia.
    unfold bind. rewrite IH. unfold ret.
    rewrite Nat.add_1_r. reflexivity.
Qed.

(** After [Reset], the first [n] calls of [Next] on an Array of [n]
    elements yield the indices 0 to [n-1] in increasing order, each with the
    element stored there; every further call yields (absent, absent) and
    leaves the Array as it is. *)
Theorem Array_Next_pass (es : list Object) (off : Z) (extra : nat) rnd :
  let n := List.length es in
  let pairs := map (fun ie => yields (Integer (Z.of_nat (fst ie))) (snd ie))
                 (combine (seq 0 n) es) in
  Reset (Array es off) = Ok (Array es 0)
  /\ List.length pairs = n
  /\ Next_n (n + extra) (Array es 0) rnd
     = (Ok ((pairs ++ repeat absent extra)%list, Array es (Z.of_nat n)),
        rnd)
  /\ Next_n extra (Array es (Z.of_nat n)) rnd
     = (Ok (repeat absent extra, Array es (Z.of_nat n)), rnd).
Proof.
  intros n pairs. split; [reflexivity|]. split; [|split].
  - subst pairs. rewrite length_map, length_combine, length_seq.
    apply Nat.min_id.
  - apply (Next_n_Array_from es [] extra rnd).
  - apply Next_n_Array_exhausted. lia.
Qed.

(** ** What iteration leaves alone *)

Lemma run_frame (calls : list call) :
  forall o rnd, well_formed o ->
  exists ys o' rnd',
    run calls o rnd = (Ok (ys, o'), rnd')
    /\ same_payload o o' /\ well_formed o'.
Proof.
  induction calls as [|[|] calls IH]; intros o rnd Hwf; cbn [run].
  - exists [], o, rnd. split; [reflexivity|]. split; [|assumption].
    destruct o; simpl in *; auto.
  - destruct (Next_frame o rnd Hwf) as (y & o1 & r1 & E1 & Hp1 & Hw1 & _).
    destruct (IH o1 r1 Hw1) as (ys & o2 & r2 & E2 & Hp2 & Hw2).
    exists (y :: ys), o2, r2. unfold bind, ret. rewrite E1, E2.
    split; [reflexivity|]. split; [|assumption].
    eapply same_payload_trans; eauto.
  - destruct (Reset_frame o Hwf) as (o1 & E1 & Hp1 & Hw1).
    destruct (IH o1 rnd Hw1) as (ys & o2 & r2 & E2 & Hp2 & Hw2).
    exists ys, o2, r2. rewrite E1, E2.
    split; [reflexivity|]. split; [|assumption].
    eapply same_payload_trans; eauto.
Qed.

Lemma same_payload_observers (o o' : Object) :
  same_payload o o' ->
  Type_ o' = Type_ o
  /\ Hashable_HashKey o' = Hashable_HashKey o
  /\ Inspect o' = Inspect o
  /\ Reset o' = Reset o.
Proof.
  destruct o, o'; simpl; try contradiction; intros ->; repeat split.
Qed.

(** Whatever calls of [Next] and [Reset] were made on a String, an Array or
    a Dict, the value still has its kind, its HashKey when it has one, and
    its rendering, and [Reset] brings it to the state in which [Reset]
    would have put it before the calls: a String that serves as a Dict key
    can be iterated over without losing its place in the Dict. *)
Theorem iteration_keeps_observers (o : Object) (calls : list call) rnd :
  well_formed o ->
  exists ys o' rnd',
    run calls o rnd = (Ok (ys, o'), rnd')
    /\ Type_ o' = Type_ o
    /\ Hashable_HashKey o' = Hashable_HashKey o
    /\ (forall r, Inspect o' r = Inspect o r)
    /\ Reset o' = Reset o.
Proof.
  intros Hwf.
  destruct (run_frame calls o rnd Hwf) as (ys & o' & rnd' & E & Hp & _).
  destruct (same_payload_observers _ _ Hp) as (Ht & Hh & Hi & Hr).
  exists ys, o', rnd'. repeat split; try assumption.
  intros r. now rewrite Hi.
Qed.

(** The thirteen kind tags are pairwise distinct: two values have the same
    [Type()] exactly when they are of the same variant. *)
Theorem Type_identifies_variant (a b : Object) :
  Type_ a = Type_ b <-> variant_index a = variant_index b.
Proof.
  destruct a, b; simpl; split; intros H;
    try reflexivity; try discriminate.
Qed.

(** ** Texts and keys within one kind *)

Lemma Sprintf_d_injective (a b : Z) : Go.Sprintf_d a = Go.Sprintf_d b -> a = b.
Proof.
  unfold Go.Sprintf_d. intros H. apply DecimalZ.to_int_inj.
  assert (Hparse : forall z,
             NilZero.int_of_string (NilZero.string_of_int (Z.to_int z))
             = Some (Z.to_int z)).
  { intros z. apply NilZero.isi; destruct z; simpl; try discriminate;
      intros [= E]; now apply DecimalPos.Unsigned.to_uint_nonnil in E. }
  pose proof (Hparse a) as Ha. rewrite H, Hparse in Ha. now inversion Ha.
Qed.

Lemma text_determines_key (a b : Object) (ha hb : HashKey) r1 r2 :
  Hashable_HashKey a = Some ha -> Hashable_HashKey b = Some hb ->
  Type_ a = Type_ b -> Render a r1 = Render b r2 -> ha = hb.
Proof.
  destruct a; try discriminate; destruct b; try discriminate;
    simpl; intros [= <-] [= <-] Hk; try discriminate Hk;
    unfold Render; simpl; intros Ht.
  - apply Sprintf_d_injective in Ht. now subst.
  - unfold Float_HashKey. now rewrite Ht.
  - destruct Value0, Value1; try discriminate; reflexivity.
  - now subst.
Qed.

(** Two hashable values of the same kind that render as the same text have
    the same HashKey: within a kind, keys that look alike are one key. *)
Theorem HashKey_of_text_within_kind (a b : Object) (ha hb : HashKey) r1 r2 :
  Hashable_HashKey a = Some ha -> Hashable_HashKey b = Some hb ->
  Type_ a = Type_ b -> Render a r1 = Render b r2 -> ha = hb.
Proof.
  intros Ha Hb Hk Ht.
  destruct a; try discriminate; destruct b; try discriminate;
    try discriminate Hk; simpl in Ha, Hb; inversion Ha; inversion Hb;
    unfold Render in Ht; simpl in Ht.
  - apply Sprintf_d_injective in Ht. now subst.
  - unfold Float_HashKey. now rewrite Ht.
  - destruct Value0, Value1; try discriminate; reflexivity.
  - now subst.
Qed.

Lemma one_kind_distinct_texts (m : list (HashKey * DictPair)) :
  keys_hashable m -> NoDup (map fst m) ->
  (forall e e', In e m -> In e' m ->
                Type_ (Key (snd e)) = Type_ (Key (snd e'))) ->
  NoDup (map (fun e => key_text (snd e)) m).
Proof.
  induction m as [|e m IH]; intros Hm Hnd Hkind; simpl; [constructor|].
  inversion Hm as [|? ? He Hm']; subst.
  inversion Hnd as [|? ? Hout Hnd']; subst.
  constructor.
  - intros Hin. apply in_map_iff in Hin. destruct Hin as (e' & Ht & He').
    apply Hout. apply in_map_iff. exists e'. split; [|exact He'].
    rewrite Forall_forall in Hm'. specialize (Hm' e' He').
    eapply text_determines_key; [exact Hm'|exact He| |exact Ht].
    apply Hkind; simpl; auto.
  - apply IH; try assumption.
    intros e1 e2 H1 H2. apply Hkind; simpl; auto.
Qed.

(** A pass over a Dict whose keys render as pairwise distinct texts, with
    the order of the yields chosen before the supply. *)
Lemma Dict_pass_uniform (m : list (HashKey * DictPair)) :
  keys_hashable m ->
  NoDup (map (fun e => key_text (snd e)) m) ->
  exists out : list DictPair,
    Permutation out (map snd m)
    /\ StronglySorted (fun p q => str_lt (key_text p) (key_text q)) out
    /\ forall rnd, exists rnd',
         Next_n (List.length m) (Dict m 0) rnd
         = (Ok (map (fun p => yields (Key p) (Value p)) out,
                Dict m (Z.of_nat (List.length m))), rnd').
Proof.
  intros Hm Hnd.
  assert (Hs : Permutation
                 (Go.sort_Strings (map (fun e => key_text (snd e)) m))
                 (map key_text (map snd m)))
    by (rewrite map_map; apply sort_Strings_Permutation).
  apply Permutation_map_inv in Hs.
  destruct Hs as (out & Hout & Hperm).
  assert (Hlen : List.length out = List.length m)
    by (rewrite <- (Permutation_length Hperm); apply length_map).
  exists out. split; [now apply Permutation_sym|]. split.
  - apply StronglySorted_map_inv. rewrite <- Hout.
    apply StronglySorted_strict; [apply sort_Strings_Sorted|].
    eapply Permutation_NoDup; [|exact Hnd].
    apply Permutation_sym, sort_Strings_Permutation.
  - intros rnd.
    destruct (Next_n_Dict_from m Hm Hnd out Hout Hperm
                (List.length m) 0%nat rnd) as [rnd' E]; [lia|].
    exists rnd'. cbn [skipn plus] in E. rewrite <- Hlen in E at 2.
    rewrite firstn_all in E. exact E.
Qed.

(** In a Dict whose keys are all of one kind no two keys render alike, so
    a pass is right whatever the keys: after [Reset], as many calls of
    [Next] as there are pairs yield every pair once, in the strictly
    ascending order of the rendered keys, the same order for every order
    in which the map is visited. *)
Theorem Dict_Next_pass_one_kind (m : list (HashKey * DictPair)) :
  keys_hashable m -> NoDup (map fst m) ->
  (forall e e', In e m -> In e' m ->
                Type_ (Key (snd e)) = Type_ (Key (snd e'))) ->
  exists out : list DictPair,
    Permutation out (map snd m)
    /\ StronglySorted (fun p q => str_lt (key_text p) (key_text q)) out
    /\ forall rnd, exists rnd',
         Next_n (List.length m) (Dict m 0) rnd
         = (Ok (map (fun p => yields (Key p) (Value p)) out,
                Dict m (Z.of_nat (List.length m))), rnd').
Proof.
  intros Hm Hnd Hkind. apply Dict_pass_uniform; [exact Hm|].
  now apply one_kind_distinct_texts.
Qed.

(** The order of a pass over a Dict does not depend on the order in which
    the map is visited, unlike the order of its rendering: with keys that
    render as pairwise distinct texts, two passes yield the same pairs in
    the same order. *)
Theorem Dict_Next_pass_deterministic
    (m : list (HashKey * DictPair)) (r1 r2 : Go.rand) :
  keys_hashable m ->
  NoDup (map (fun e => key_text (snd e)) m) ->
  exists ys,
    fst (Next_n (List.length m) (Dict m 0) r1)
    = Ok (ys, Dict m (Z.of_nat (List.length m)))
    /\ fst (Next_n (List.length m) (Dict m 0) r2)
       = Ok (ys, Dict m (Z.of_nat (List.length m)))
    /\ List.length ys = List.length m.
Proof.
  intros Hm Hnd.
  destruct (Dict_pass_uniform m Hm Hnd) as (out & Hperm & _ & Hpass).
  destruct (Hpass r1) as [r1' E1]. destruct (Hpass r2) as [r2' E2].
  exists (map (fun p => yields (Key p) (Value p)) out).
  rewrite E1, E2. repeat split.
  rewrite length_map, (Permutation_length Hperm). apply length_map.
Qed.

(** ** One call of [Dict.Next], whatever the texts *)

Lemma lookup_remembered_In (order : list (HashKey * DictPair)) :
  forall dict k p,
  Go.lookup String.eqb (fold_left remember_pair order dict) k = Some p ->
  (In p (map snd order) /\ key_text p = k)
  \/ Go.lookup String.eqb dict k = Some p.
Proof.
  induction order as [|e order IH]; intros dict k p H; simpl in *;
    [now right|].
  destruct (IH _ _ _ H) as [[Hin Hk]|Hl]; [left; auto|].
  unfold remember_pair in Hl.
  destruct (string_dec (key_text (snd e)) k) as [<-|Hne].
  - rewrite (lookup_store_same _ String.eqb_eq) in Hl.
    inversion Hl; subst. left; auto.
  - rewrite (lookup_store_other _ String.eqb_eq) in Hl by exact Hne.
    now right.
Qed.

Lemma scan_below (off : Z) (keys : list string) :
  forall idx, off < idx -> scan off keys idx = None.
Proof.
  induction keys as [|k keys IH]; intros idx Hlt; simpl; [reflexivity|].
  destruct (Z.eqb_spec off idx) as [->|_]; [lia|]. apply IH. lia.
Qed.

Lemma sort_Strings_length (l : list string) :
  List.length (Go.sort_Strings l) = List.length l.
Proof. apply Permutation_length, sort_Strings_Permutation. Qed.

(** One call of [Next] on a Dict of [n] pairs with hashable keys, whether
    or not two keys render alike.  With the cursor at [off] below [n] it
    yields a pair stored in the Dict, one whose rendered key is the text of
    rank [off] among the sorted texts, and moves the cursor by one; with
    the cursor elsewhere it yields (absent, absent) and leaves the cursor.
    So a pass always makes [n] yields, in ascending order of text, and
    never yields a pair that is not stored. *)
Theorem Dict_Next_step (m : list (HashKey * DictPair)) (off : Z) rnd :
  keys_hashable m ->
  let n := Z.of_nat (List.length m) in
  let texts := Go.sort_Strings (map (fun e => key_text (snd e)) m) in
  (0 <= off < n ->
   exists p : DictPair,
     In p (map snd m)
     /\ nth_error texts (Z.to_nat off) = Some (key_text p)
     /\ fst (Next (Dict m off) rnd)
        = Ok (yields (Key p) (Value p), Dict m (off + 1)))
  /\ (off < 0 \/ n <= off ->
      fst (Next (Dict m off) rnd) = Ok (absent, Dict m off)).
Proof.
  intros Hm n texts. cbn [Next]. unfold bind, ret.
  rewrite Dict_Next_hashable by exact Hm. fold texts. split.
  - intros Hoff. rewrite scan_nth_error by lia. rewrite Z.sub_0_r.
    destruct (nth_error texts (Z.to_nat off)) as [k|] eqn:Ek.
    2:{ apply nth_error_None in Ek. subst texts n.
        rewrite sort_Strings_length, length_map in Ek. lia. }
    assert (Hin : In k (map (fun e => key_text (snd e))
                          (fst (Go.range_map m rnd)))).
    { apply nth_error_In in Ek. subst texts.
      apply (Permutation_in k (sort_Strings_Permutation _)) in Ek.
      revert Ek. apply Permutation_in, Permutation_map, Permutation_sym,
        range_map_Permutation. }
    destruct (lookup_remembered_Some _ [] k Hin) as [p Hp].
    destruct (lookup_remembered_In _ _ _ _ Hp) as [[Hpin Hk]|Hnil];
      [|discriminate].
    exists p. split; [|split].
    + revert Hpin. apply Permutation_in, Permutation_map,
        range_map_Permutation.
    + now rewrite Hk.
    + cbv zeta. unfold DictPair in *. rewrite Hp. reflexivity.
  - intros [Hneg|Hbig].
    + now rewrite scan_below by lia.
    + rewrite scan_nth_error by lia. rewrite Z.sub_0_r.
      assert (E : nth_error texts (Z.to_nat off) = None).
      { apply nth_error_None. subst texts n.
        rewrite sort_Strings_length, length_map. lia. }
      now rewrite E.
Qed.

(** ** The cursor stays within bounds *)

Lemma collect_keys_length (order : list (HashKey * DictPair)) :
  forall dict keys rnd,
  List.length (snd (fst (collect order dict keys rnd)))
  = (List.length keys + List.length order)%nat.
Proof.
  induction order as [|[h p] order IH]; intros dict keys rnd; simpl.
  - lia.
  - unfold bind.
    destruct (Inspect (Key p) rnd) as [k1 r1].
    destruct (Inspect (Key p) r1) as [k2 r2].
    rewrite IH, length_app. simpl. lia.
Qed.

Lemma scan_Some_bound (off : Z) (keys : list string) :
  forall idx k, scan off keys idx = Some k ->
  idx <= off < idx + Z.of_nat (List.length keys).
Proof.
  induction keys as [|k0 keys IH]; intros idx k; simpl; [discriminate|].
  destruct (Z.eqb_spec off idx) as [->|_]; [lia|].
  intros H. apply IH in H. lia.
Qed.

Lemma Next_bounded (o : Object) rnd :
  cursor_bounded o ->
  exists y o' rnd',
    Next o rnd = (Ok (y, o'), rnd')
    /\ same_payload o o' /\ cursor_bounded o'.
Proof.
  destruct o as [| | | | | | |v off| |es off|m off| |]; simpl;
    try contradiction.
  - intros Hoff. unfold ret, String_Next.
    destruct (Z.gtb_spec (Z.of_nat (String.length v)) off) as [Hlt|Hge].
    + destruct (index_Some v off) as [c ->]; [lia|].
      do 3 eexists. split; [reflexivity|]. simpl. split; [reflexivity|lia].
    + do 3 eexists. split; [reflexivity|]. simpl. auto.
  - intros Hoff. unfold ret, Array_Next.
    destruct (Z.gtb_spec (Z.of_nat (List.length es)) off) as [Hlt|Hge].
    + destruct (element_Some es off) as [e ->]; [lia|].
      do 3 eexists. split; [reflexivity|]. simpl. split; [reflexivity|lia].
    + do 3 eexists. split; [reflexivity|]. simpl. auto.
  - intros Hoff. unfold bind, ret, Dict_Next, bind.
    pose proof (range_map_Permutation m rnd) as Hp.
    unfold DictPair in *.
    destruct (Go.range_map m rnd) as [order r0]. simpl fst in Hp.
    pose proof (collect_keys_length order [] [] r0) as Hlen.
    unfold DictPair in *.
    destruct (collect order _ _ r0) as [[dict keys] r1].
    simpl in Hlen.
    destruct (scan off (Go.sort_Strings keys) 0) as [k|] eqn:Es.
    + apply scan_Some_bound in Es.
      rewrite sort_Strings_length, Hlen, (Permutation_length Hp) in Es.
      do 3 eexists. split; [reflexivity|]. simpl. split; [reflexivity|lia].
    + do 3 eexists. split; [reflexivity|]. simpl. auto.
Qed.

(** From a cursor between zero and the number of items, and so from
    [Reset], no sequence of [Next] and [Reset] calls panics on an index
    and the cursor never leaves that range; for a Dict this holds whatever
    its keys are. *)
Theorem cursor_stays_bounded (o : Object) (calls : list call) rnd :
  cursor_bounded o ->
  exists ys o' rnd',
    run calls o rnd = (Ok (ys, o'), rnd')
    /\ cursor_bounded o'
    /\ List.length ys
       = List.length (filter (fun c => match c with
                                       | call_Next => true
                                       | call_Reset => false
                                       end) calls).
Proof.
  revert o rnd.
  induction calls as [|[|] calls IH]; intros o rnd Hb; cbn [run filter].
  - now exists [], o, rnd.
  - destruct (Next_bounded o rnd Hb) as (y & o1 & r1 & E1 & _ & Hb1).
    destruct (IH o1 r1 Hb1) as (ys & o2 & r2 & E2 & Hb2 & Hlen).
    exists (y :: ys), o2, r2. unfold bind, ret. rewrite E1, E2.
    split; [reflexivity|]. split; [assumption|]. simpl. now rewrite Hlen.
  - assert (Hr : exists o1, Reset o = Ok o1 /\ cursor_bounded o1).
    { destruct o; simpl in *; try contradiction;
        eexists; (split; [reflexivity|]); simpl; lia. }
    destruct Hr as (o1 & E1 & Hb1).
    destruct (IH o1 rnd Hb1) as (ys & o2 & r2 & E2 & Hb2 & Hlen).
    exists ys, o2, r2. rewrite E1, E2. auto.
Qed.

(** ** The characters of a String *)

Lemma string_of_byte_ascii (c : ascii) :
  Go.byte_val c < 128 -> Go.string_of_byte c = String.String c EmptyString.
Proof.
  unfold Go.string_of_byte. intros H.
  destruct (Z.ltb_spec (Go.byte_val c) 128); [reflexivity|lia].
Qed.

Lemma string_of_byte_length (c : ascii) :
  String.length (Go.string_of_byte c)
  = if Go.byte_val c <? 128 then 1%nat else 2%nat.
Proof. unfold Go.string_of_byte. now destruct (Go.byte_val c <? 128). Qed.

Lemma list_ascii_length (v : string) :
  List.length (list_ascii_of_string v) = String.length v.
Proof. induction v; simpl; congruence. Qed.

Lemma yielded_texts_of_pass (chars : list ascii) :
  forall i,
  map yielded_text
    (map (fun ic => string_yield (fst ic) (snd ic))
       (combine (seq i (List.length chars)) chars))
  = map Go.string_of_byte chars.
Proof.
  induction chars as [|c chars IH]; intros i; simpl; [reflexivity|].
  now rewrite IH.
Qed.

Lemma concat_texts_length (v : string) :
  String.length
    (fold_right append "" (map Go.string_of_byte (list_ascii_of_string v)))
  = (String.length v
     + List.length (filter (fun c => negb (Go.byte_val c <? 128)%Z)
                      (list_ascii_of_string v)))%nat.
Proof.
  induction v as [|c v IH]; simpl; [reflexivity|].
  rewrite str_length_append, IH, string_of_byte_length.
  destruct (Go.byte_val c <? 128); simpl; lia.
Qed.

(** Joining the characters that a pass over a String yields gives the
    String back exactly when all its bytes are below [0x80].  A byte from
    [0x80] up is yielded as a String of two bytes, so the characters of any
    other String are together longer than the String. *)
Theorem String_pass_texts (v : string) rnd :
  exists ys,
    fst (Next_n (String.length v) (String v 0) rnd)
    = Ok (ys, String v (Z.of_nat (String.length v)))
    /\ map yielded_text ys
       = map Go.string_of_byte (list_ascii_of_string v)
    /\ (fold_right append "" (map yielded_text ys) = v
        <-> Forall (fun c => Go.byte_val c < 128) (list_ascii_of_string v)).
Proof.
  pose proof (Next_n_String_from v EmptyString 0 rnd) as E.
  rewrite Nat.add_0_r, app_nil_r in E. cbn [append String.length] in E.
  change (Z.of_nat 0) with 0 in E.
  eexists. rewrite E. split; [reflexivity|].
  rewrite <- (list_ascii_length v). rewrite yielded_texts_of_pass.
  split; [reflexivity|]. split.
  - intros Heq. apply (f_equal String.length) in Heq.
    rewrite concat_texts_length in Heq.
    assert (Hnone : filter (fun c => negb (Go.byte_val c <? 128))
                      (list_ascii_of_string v) = [])
      by (apply length_zero_iff_nil; lia).
    apply Forall_forall. intros c Hc.
    destruct (Z.ltb_spec (Go.byte_val c) 128) as [Hlt|Hge]; [exact Hlt|].
    assert (Hin : In c (filter (fun c => negb (Go.byte_val c <? 128))
                          (list_ascii_of_string v))).
    { apply filter_In. split; [exact Hc|].
      destruct (Z.ltb_spec (Go.byte_val c) 128); [lia|reflexivity]. }
    rewrite Hnone in Hin. contradiction.
  - clear E. induction v as [|c v IH]; simpl; [reflexivity|].
    intros H. inversion H; subst.
    rewrite string_of_byte_ascii by assumption. simpl. f_equal. now apply IH.
Qed.

(** ** A pass over a Dict with two keys that render alike *)

Lemma pick_first {A : Type} (l : list A) :
  Go.pick (List.length l) 0 l = l.
Proof.
  induction l as [|x l IH]; [reflexivity|].
  cbn [List.length Go.pick]. rewrite Nat.Div0.mod_0_l, Nat.Div0.div_0_l.
  cbn [nth Go.remove_at]. now rewrite IH.
Qed.

Lemma range_map_storage_order {A : Type} (m : list A) :
  Go.range_map m [] = (m, []).
Proof. unfold Go.range_map, Go.permute. cbn [Go.draw]. now rewrite pick_first. Qed.

Lemma stored_pairs_NoDup (m : list (HashKey * DictPair)) :
  keys_hashable m -> NoDup (map fst m) -> NoDup (map snd m).
Proof.
  induction m as [|e m IH]; intros Hm Hnd; simpl; [constructor|].
  inversion Hm as [|? ? He Hm']; subst.
  inversion Hnd as [|? ? Hout Hnd']; subst.
  constructor; [|now apply IH].
  intros Hin. apply in_map_iff in Hin. destruct Hin as (e' & Hs & He').
  apply Hout. apply in_map_iff. exists e'. split; [|exact He'].
  rewrite Forall_forall in Hm'. specialize (Hm' e' He').
  rewrite Hs in Hm'. congruence.
Qed.

Section StorageOrder.

(** A Dict whose keys are hashable, visited in its storage order at every
    call: what [Next] yields at the text [k]. *)
Variable m : list (HashKey * DictPair).
Hypothesis Hm : keys_hashable m.

Let texts : list string :=
  Go.sort_Strings (map (fun e => key_text (snd e)) m).

Let pair_at (k : string) : DictPair :=
  match Go.lookup String.eqb (fold_left remember_pair m []) k with
  | Some p => p
  | None => (Null, Null)
  end.

Lemma Next_Dict_storage_order (i : nat) (k : string) :
  nth_error texts i = Some k ->
  Next (Dict m (Z.of_nat i)) []
  = (Ok (yields (Key (pair_at k)) (Value (pair_at k)),
         Dict m (Z.of_nat (S i))), []).
Proof.
  intros Hk. cbn [Next]. unfold bind, ret.
  rewrite Dict_Next_hashable by exact Hm. fold texts.
  rewrite range_map_storage_order. cbn [fst snd].
  rewrite scan_nth_error by lia. rewrite Z.sub_0_r, Nat2Z.id, Hk.
  assert (Hin : In k (map (fun e => key_text (snd e)) m)).
  { apply nth_error_In in Hk. subst texts.
    now apply (Permutation_in k (sort_Strings_Permutation _)) in Hk. }
  destruct (lookup_remembered_Some m [] k Hin) as [p Hp].
  cbv zeta. unfold pair_at. unfold DictPair in *. rewrite Hp.
  rewrite Nat2Z.inj_succ. reflexivity.
Qed.

Lemma Next_n_Dict_storage_order (j : nat) :
  forall i : nat, (i + j <= List.length texts)%nat ->
  Next_n j (Dict m (Z.of_nat i)) []
  = (Ok (map (fun p => yields (Key p) (Value p))
           (map pair_at (firstn j (skipn i texts))),
         Dict m (Z.of_nat (i + j))), []).
Proof.
  induction j as [|j IH]; intros i Hij.
  - rewrite Nat.add_0_r. reflexivity.
  - destruct (nth_error texts i) as [k|] eqn:Hk;
      [|apply nth_error_None in Hk; lia].
    cbn [Next_n]. unfold bind at 1.
    rewrite (Next_Dict_storage_order i k Hk).
    unfold bind. rewrite (IH (S i)) by lia. unfold ret.
    rewrite (nth_error_skipn _ _ _ Hk). cbn [firstn map].
    now rewrite Nat.add_succ_r.
Qed.

Lemma pass_storage_order :
  Next_n (List.length m) (Dict m 0) []
  = (Ok (map (fun p => yields (Key p) (Value p)) (map pair_at texts),
         Dict m (Z.of_nat (List.length m))), []).
Proof.
  assert (Hlen : List.length texts = List.length m)
    by (subst texts; now rewrite sort_Strings_length, length_map).
  pose proof (Next_n_Dict_storage_order (List.length m) 0%nat) as E.
  cbn [skipn plus] in E. rewrite <- Hlen in E at 3.
  rewrite firstn_all in E. apply E. lia.
Qed.

End StorageOrder.

(** Whenever two keys of a Dict render as the same text, a pass can miss a
    pair: when every call of [Next] visits the map in the same order (here
    the order of storage), the pass yields some pair more than once, and
    not every stored pair is yielded.  So pairwise distinct texts are the
    exact condition under which every pass is right. *)
Theorem Dict_Next_pass_misses_a_pair (m : list (HashKey * DictPair)) :
  keys_hashable m -> NoDup (map fst m) ->
  ~ NoDup (map (fun e => key_text (snd e)) m) ->
  exists out : list DictPair,
    Next_n (List.length m) (Dict m 0) []
    = (Ok (map (fun p => yields (Key p) (Value p)) out,
           Dict m (Z.of_nat (List.length m))), [])
    /\ ~ NoDup out
    /\ ~ incl (map snd m) out.
Proof.
  intros Hm Hnd Hdup.
  eexists. split; [apply (pass_storage_order m Hm)|].
  set (texts := Go.sort_Strings (map (fun e => key_text (snd e)) m)).
  set (out := map _ texts).
  assert (Hout : ~ NoDup out).
  { intros H. apply NoDup_map_inv in H. apply Hdup.
    eapply Permutation_NoDup; [|exact H].
    apply sort_Strings_Permutation. }
  split; [exact Hout|].
  intros Hincl. apply Hout.
  apply NoDup_incl_NoDup with (l := map snd m);
    [|subst out texts|exact Hincl].
  - now apply stored_pairs_NoDup.
  - now rewrite !length_map, sort_Strings_length, length_map.
Qed.

End WithFormatFloat.

(** ** The package at concrete values

    From here on floats are rendered by the model of
    [strconv.FormatFloat]. *)

Example FormatFloat_samples :
  map Go.strconv_FormatFloat
    [ float_one; 0x3FB999999999999A; 0x3FD3333333333334;
      0xC004000000000000; 0x44B52D02C7E14AF6; 0x43E0000000000000;
      0x7FF8000000000000; 0xFFF0000000000000; 0x8000000000000000 ]
  = [ "1"; "0.1"; "0.30000000000000004"; "-2.5";
      "100000000000000000000000"; "9223372036854776000";
      "NaN"; "-Inf"; "-0" ].
Proof. vm_compute. reflexivity. Qed.

Example Sprintf_d_samples :
  map Go.Sprintf_d [0; 7; -42; 9223372036854775807]
  = ["0"; "7"; "-42"; "9223372036854775807"].
Proof. reflexivity. Qed.

Example fnv64a_samples :
  map Go.fnv64a [""; "a"] = [0xcbf29ce484222325; 0xaf63dc4c8601ec8c].
Proof. reflexivity. Qed.

Example permute_orders :
  map (fun seed => Go.permute seed [1; 2; 3]%nat) (seq 0 6)
  = [[1; 2; 3]; [2; 1; 3]; [3; 1; 2]; [1; 3; 2]; [2; 3; 1]; [3; 2; 1]]%nat.
Proof. reflexivity. Qed.

Example string_of_byte_samples :
  map Go.string_of_byte ["a"%char; Go.byte_of 195]
  = ["a"; String.String (Go.byte_of 195) (String.String (Go.byte_of 131) "")].
Proof. reflexivity. Qed.

(** The spec's scenario: whatever the order of the visits, the traversal of
    the Dict of "b" and "a" yields "a" first. *)
Example sample_traversal :
  forall rnd,
    fst (Next_n Go.strconv_FormatFloat 2 (Dict sample_pairs 0) rnd)
    = Ok ([ yields (String "a" 0) (Integer 1);
            yields (String "b" 0) (Integer 2) ], Dict sample_pairs 2).
Proof.
  intros rnd.
  destruct (Next_n_Dict_from Go.strconv_FormatFloat sample_pairs)
    with (out := [(String "a" 0, Integer 1); (String "b" 0, Integer 2)])
         (j := 2%nat) (i := 0%nat) (rnd := rnd) as [rnd' E].
  - repeat constructor.
  - repeat constructor; simpl; intuition discriminate.
  - reflexivity.
  - apply perm_swap.
  - simpl. lia.
  - change (Z.of_nat 0) with 0 in E. rewrite E. reflexivity.
Qed.

(** In a Dict the Integer 1 and the Float 1.0 render as the same text and
    have different HashKeys. *)
Lemma HashKey_kinds_distinct_witness :
  Render Go.strconv_FormatFloat (Integer 1) []
  = Render Go.strconv_FormatFloat (Float float_one) []
  /\ Integer_HashKey 1 <> Float_HashKey Go.strconv_FormatFloat float_one.
Proof.
  split; [vm_compute; reflexivity|].
  apply (proj1 (HashKey_kinds_distinct Go.strconv_FormatFloat)
           (Integer 1) (Float float_one)); [reflexivity|reflexivity|].
  simpl. discriminate.
Defined.

Lemma Integer_HashKey_injective_witness :
  -1 = 1 <-> Integer_HashKey (-1) = Integer_HashKey 1.
Proof.
  apply Integer_HashKey_injective; unfold int64_range; simpl; lia.
Defined.

(** Two NaNs of different bit patterns: one text, one HashKey. *)
Lemma Float_HashKey_of_text_witness :
  0x7FF8000000000000 <> 0x7FF8000000000001
  /\ Hashable_HashKey Go.strconv_FormatFloat (Float 0x7FF8000000000000)
     = Hashable_HashKey Go.strconv_FormatFloat (Float 0x7FF8000000000001).
Proof.
  split; [discriminate|].
  apply (Float_HashKey_of_text Go.strconv_FormatFloat _ _ [] []).
  reflexivity.
Defined.

Lemma Next_Reset_frame_witness :
  let o := Dict sample_pairs 0 in
  let calls := [call_Next; call_Next; call_Next; call_Reset; call_Next] in
  (exists ys o' rnd',
     run Go.strconv_FormatFloat calls o [1; 0]%nat = (Ok (ys, o'), rnd')
     /\ same_payload o o' /\ well_formed Go.strconv_FormatFloat o')
  /\ (forall o' rnd',
        Next Go.strconv_FormatFloat o [1; 0]%nat = (Ok (absent, o'), rnd')
        -> o' = o).
Proof.
  apply (Next_Reset_frame Go.strconv_FormatFloat).
  simpl. split; [lia|]. repeat constructor.
Defined.

Lemma Inspect_pure_witness :
  exists s rnd',
    Inspect_twice Go.strconv_FormatFloat
      (Array [Integer 1; Float float_one; String "x" 0;
              Dict [(String_HashKey "k", (String "k" 0, Null))] 0] 0)
      [5; 3]%nat
    = ((s, s), rnd').
Proof.
  apply (proj2 (proj2 (Inspect_pure Go.strconv_FormatFloat))).
  reflexivity.
Defined.

Lemma Dict_Next_pass_distinct_texts_witness :
  exists (out : list DictPair) rnd',
    Permutation out (map snd sample_pairs)
    /\ StronglySorted
         (fun p q => str_lt (key_text Go.strconv_FormatFloat p)
                       (key_text Go.strconv_FormatFloat q)) out
    /\ Reset (Dict sample_pairs 7) = Ok (Dict sample_pairs 0)
    /\ Next_n Go.strconv_FormatFloat 2 (Dict sample_pairs 0) [1; 0]%nat
       = (Ok (map (fun p => yields (Key p) (Value p)) out,
              Dict sample_pairs 2), rnd')
    /\ forall r, fst (Next Go.strconv_FormatFloat (Dict sample_pairs 2) r)
                 = Ok (absent, Dict sample_pairs 2).
Proof.
  apply (Dict_Next_pass_distinct_texts Go.strconv_FormatFloat
           sample_pairs 7 [1; 0]%nat).
  - repeat constructor.
  - repeat constructor; simpl; intuition discriminate.
Defined.

(** C9 as stated fails at an Array: two calls in a row on an Array that
    holds a Dict of two pairs may return different texts. *)
Lemma Inspect_Array_unstable :
  Type_ array_of_dict = ARRAY_OBJ
  /\ fst (Inspect_twice Go.strconv_FormatFloat array_of_dict [0; 1]%nat)
     = ("[{a: 1, b: 2}]", "[{b: 2, a: 1}]")
  /\ "[{a: 1, b: 2}]" <> "[{b: 2, a: 1}]".
Proof. repeat split. discriminate. Qed.

(** ** The further properties at concrete values *)

Lemma iteration_keeps_observers_witness :
  exists ys o' rnd',
    run Go.strconv_FormatFloat
      [call_Next; call_Next; call_Reset; call_Next] (String "ab" 0) []
    = (Ok (ys, o'), rnd')
    /\ Type_ o' = Type_ (String "ab" 0)
    /\ Hashable_HashKey Go.strconv_FormatFloat o'
       = Hashable_HashKey Go.strconv_FormatFloat (String "ab" 0)
    /\ (forall r, Inspect Go.strconv_FormatFloat o' r
                  = Inspect Go.strconv_FormatFloat (String "ab" 0) r)
    /\ Reset o' = Reset (String "ab" 0).
Proof.
  apply (iteration_keeps_observers Go.strconv_FormatFloat).
  simpl. lia.
Defined.

(** A quiet NaN and a negative NaN: one kind, one text, one HashKey. *)
Lemma HashKey_of_text_within_kind_witness :
  Float_HashKey Go.strconv_FormatFloat 0x7FF8000000000000
  = Float_HashKey Go.strconv_FormatFloat 0xFFF8000000000001.
Proof.
  apply (HashKey_of_text_within_kind Go.strconv_FormatFloat
           (Float 0x7FF8000000000000) (Float 0xFFF8000000000001) _ _ [] []);
    reflexivity.
Defined.

Lemma Dict_Next_pass_one_kind_witness :
  exists out : list DictPair,
    Permutation out (map snd sample_pairs)
    /\ StronglySorted
         (fun p q => str_lt (key_text Go.strconv_FormatFloat p)
                       (key_text Go.strconv_FormatFloat q)) out
    /\ forall rnd, exists rnd',
         Next_n Go.strconv_FormatFloat 2 (Dict sample_pairs 0) rnd
         = (Ok (map (fun p => yields (Key p) (Value p)) out,
                Dict sample_pairs 2), rnd').
Proof.
  apply (Dict_Next_pass_one_kind Go.strconv_FormatFloat sample_pairs).
  - repeat constructor.
  - repeat constructor; simpl; intuition discriminate.
  - simpl. intros e e' [<-|[<-|[]]] [<-|[<-|[]]]; reflexivity.
Defined.

Lemma Dict_Next_pass_deterministic_witness :
  exists ys,
    fst (Next_n Go.strconv_FormatFloat 2 (Dict sample_pairs 0) [0; 0]%nat)
    = Ok (ys, Dict sample_pairs 2)
    /\ fst (Next_n Go.strconv_FormatFloat 2 (Dict sample_pairs 0)
              [1; 1]%nat)
       = Ok (ys, Dict sample_pairs 2)
    /\ List.length ys = 2%nat.
Proof.
  apply (Dict_Next_pass_deterministic Go.strconv_FormatFloat sample_pairs).
  - repeat constructor.
  - repeat constructor; simpl; intuition discriminate.
Defined.

Lemma Dict_Next_step_witness :
  (0 <= 1 < 2 ->
   exists p : DictPair,
     In p (map snd colliding_pairs)
     /\ nth_error
          (Go.sort_Strings
             (map (fun e => key_text Go.strconv_FormatFloat (snd e))
                colliding_pairs)) (Z.to_nat 1)
        = Some (key_text Go.strconv_FormatFloat p)
     /\ fst (Next Go.strconv_FormatFloat (Dict colliding_pairs 1) [1]%nat)
        = Ok (yields (Key p) (Value p), Dict colliding_pairs (1 + 1)))
  /\ (1 < 0 \/ 2 <= 1 ->
      fst (Next Go.strconv_FormatFloat (Dict colliding_pairs 1) [1]%nat)
      = Ok (absent, Dict colliding_pairs 1)).
Proof.
  apply (Dict_Next_step Go.strconv_FormatFloat colliding_pairs 1 [1]%nat).
  repeat constructor.
Defined.

Lemma cursor_stays_bounded_witness :
  exists ys o' rnd',
    run Go.strconv_FormatFloat
      [call_Next; call_Next; call_Next; call_Reset; call_Next]
      (Array [Integer 5; Null] 0) []
    = (Ok (ys, o'), rnd')
    /\ cursor_bounded o'
    /\ List.length ys = 4%nat.
Proof.
  apply (cursor_stays_bounded Go.strconv_FormatFloat
           (Array [Integer 5; Null] 0)
           [call_Next; call_Next; call_Next; call_Reset; call_Next] []).
  simpl. lia.
Defined.

Lemma Dict_Next_pass_misses_a_pair_witness :
  exists out : list DictPair,
    Next_n Go.strconv_FormatFloat 2 (Dict colliding_pairs 0) []
    = (Ok (map (fun p => yields (Key p) (Value p)) out,
           Dict colliding_pairs 2), [])
    /\ ~ NoDup out
    /\ ~ incl (map snd colliding_pairs) out.
Proof.
  apply (Dict_Next_pass_misses_a_pair Go.strconv_FormatFloat
           colliding_pairs).
  - repeat constructor.
  - repeat constructor; simpl; intuition discriminate.
  - intros H. inversion H as [|? ? Hout _]. apply Hout. now left.
Defined.
